(** * Streaming diff utilities of the tool-call parsers

    A shallow embedding of
    [vllm/entrypoints/openai/tool_parsers/utils.py]:
    [find_common_prefix], [find_common_suffix],
    [extract_intermediate_diff] and [find_all_indices], together with the
    Python built-ins they call ([len], [range], indexing, [str.isalnum],
    [str.find], [str.replace] with count 1, slicing).

    A Python [str] is modelled as a list of characters, an [int] as [Z].
    Indexing out of range raises [IndexError]; the embedding keeps that
    outcome explicit, so that "never raises" is a theorem and not an
    artefact of the model.  The [while True] loop of [find_all_indices] is
    run with fuel. *)

From Stdlib Require Import List ZArith Lia Bool Ascii String Sorted.
Import ListNotations.

Local Open Scope Z_scope.

(** ** Strings and outcomes *)

(** A Python string: a sequence of characters (code points below 256). *)
Definition str := list ascii.

(** A string literal without quote characters in it. *)
Definition lit (s : string) : str := list_ascii_of_string s.

(** The double-quote character, code 34. *)
Definition dquote : ascii := ascii_of_nat 34.

Inductive error : Type :=
| IndexError.

(** The outcome of running a piece of Python code. *)
Inductive exc (A : Type) : Type :=
| Return (a : A)
| Raise (e : error).

Arguments Return {A} a.
Arguments Raise {A} e.

Definition bind {A B : Type} (m : exc A) (k : A -> exc B) : exc B :=
  match m with
  | Return a => k a
  | Raise e => Raise e
  end.

Notation "x <- m ;; k" := (bind m (fun x => k))
  (at level 61, m at next level, right associativity).

(** ** Python built-ins *)

(** [len(s)]. *)
Definition len (s : str) : Z := Z.of_nat (List.length s).

(** [s[i]]: a negative index counts from the end; an index outside
    [-len(s) .. len(s)-1] raises [IndexError]. *)
Definition getitem (s : str) (i : Z) : exc ascii :=
  let j := if i <? 0 then i + len s else i in
  if (0 <=? j) && (j <? len s) then
    match nth_error s (Z.to_nat j) with
    | Some c => Return c
    | None => Raise IndexError
    end
  else Raise IndexError.

Fixpoint range_from (lo : Z) (n : nat) : list Z :=
  match n with
  | O => []
  | S n' => lo :: range_from (lo + 1) n'
  end.

(** [range(lo, hi)]: the integers [lo, lo+1, ..., hi-1]. *)
Definition range (lo hi : Z) : list Z := range_from lo (Z.to_nat (hi - lo)).

Definition in_range (lo hi n : nat) : bool :=
  (Nat.leb lo n) && (Nat.leb n hi).

(** [c.isalnum()] for a one-character string, over code points 0..255:
    the ASCII digits and letters, and the Latin-1 letters and numeric
    characters that Python classifies as alphanumeric. *)
Definition isalnum (c : ascii) : bool :=
  let n := nat_of_ascii c in
  in_range 48 57 n || in_range 65 90 n || in_range 97 122 n
  || Nat.eqb n 170 || in_range 178 179 n || Nat.eqb n 181
  || in_range 185 186 n || in_range 188 190 n
  || in_range 192 214 n || in_range 216 246 n || in_range 248 255 n.

(** [s.startswith(p)]. *)
Fixpoint startswith (s p : str) {struct p} : bool :=
  match p, s with
  | [], _ => true
  | x :: p', y :: s' => Ascii.eqb x y && startswith s' p'
  | _ :: _, [] => false
  end.

(** The scan of [str.find]: [s] is the text from offset [i] on; the first
    offset at which [sub] starts, if any. The end of the text is an offset
    too (where only the empty string starts). *)
Fixpoint find_from (s sub : str) (i : nat) : option nat :=
  if startswith s sub then Some i
  else match s with
       | [] => None
       | _ :: s' => find_from s' sub (S i)
       end.

(** [s.find(sub, start)]: the lowest index [i >= start] with
    [s[i:i+len(sub)] == sub], or [-1]. A negative [start] counts from the
    end (and is clipped at 0); a [start] beyond [len(s)] finds nothing, not
    even the empty string. *)
Definition find (s sub : str) (start : Z) : Z :=
  let start := if start <? 0 then Z.max 0 (start + len s) else start in
  if len s <? start then -1
  else match find_from (skipn (Z.to_nat start) s) sub (Z.to_nat start) with
       | Some i => Z.of_nat i
       | None => -1
       end.

(** [s[i:j]] for a slice with step 1: negative bounds count from the end,
    and both bounds are clipped to [0 .. len(s)]. *)
Definition slice (s : str) (i j : Z) : str :=
  let clip k := Z.min (len s) (Z.max 0 (if k <? 0 then k + len s else k)) in
  let i' := clip i in
  let j' := clip j in
  firstn (Z.to_nat (j' - i')) (skipn (Z.to_nat i') s).

(** [s.replace(old, new, 1)]: the first occurrence of [old] in [s], if
    there is one, is replaced by [new]. The empty string occurs at offset
    0. *)
Definition replace_1 (s old new : str) : str :=
  let i := find s old 0 in
  if i =? -1 then s
  else slice s 0 i ++ new ++ slice s (i + len old) (len s).

(** [s[::-1]]. *)
Definition reversed (s : str) : str := rev s.

(** ** The four functions of [utils.py] *)

(** The [for] loop of [find_common_prefix]: [rng] is what is left of
    [range(0, min_length)], [prefix] the accumulator; [break] returns the
    accumulator as it stands. *)
Fixpoint find_common_prefix_loop (s1 s2 : str) (rng : list Z) (prefix : str)
  : exc str :=
  match rng with
  | [] => Return prefix
  | i :: rng' =>
      c1 <- getitem s1 i ;;
      c2 <- getitem s2 i ;;
      if Ascii.eqb c1 c2 then
        c <- getitem s1 i ;;
        find_common_prefix_loop s1 s2 rng' (prefix ++ [c])
      else Return prefix
  end.

Definition find_common_prefix (s1 s2 : str) : exc str :=
  let prefix := [] in
  let min_length := Z.min (len s1) (len s2) in
  find_common_prefix_loop s1 s2 (range 0 min_length) prefix.

(** The [for] loop of [find_common_suffix]. [and] is short-circuit:
    [s1[-i].isalnum()] is evaluated only when the characters agree. *)
Fixpoint find_common_suffix_loop (s1 s2 : str) (rng : list Z) (suffix : str)
  : exc str :=
  match rng with
  | [] => Return suffix
  | i :: rng' =>
      c1 <- getitem s1 (- i) ;;
      c2 <- getitem s2 (- i) ;;
      cond <- (if Ascii.eqb c1 c2
               then c <- getitem s1 (- i) ;; Return (negb (isalnum c))
               else Return false) ;;
      if cond : bool then
        c <- getitem s1 (- i) ;;
        find_common_suffix_loop s1 s2 rng' (c :: suffix)
      else Return suffix
  end.

Definition find_common_suffix (s1 s2 : str) : exc str :=
  let suffix := [] in
  let min_length := Z.min (len s1) (len s2) in
  find_common_suffix_loop s1 s2 (range 1 (min_length + 1)) suffix.

Definition extract_intermediate_diff (curr old : str) : exc str :=
  suffix <- find_common_suffix curr old ;;
  let old := reversed (replace_1 (reversed old) (reversed suffix) []) in
  prefix <- find_common_prefix curr old ;;
  let diff := curr in
  let diff :=
    if len suffix =? 0 then diff
    else reversed (replace_1 (reversed diff) (reversed suffix) []) in
  let diff :=
    if len prefix =? 0 then diff
    else replace_1 diff prefix [] in
  Return diff.

(** The [while True] loop of [find_all_indices], run for at most [fuel]
    iterations; [None] means the fuel ran out before the loop reached
    [break]. *)
Fixpoint find_all_indices_loop (fuel : nat) (string substring : str)
  (index : Z) (indices : list Z) : option (list Z) :=
  match fuel with
  | O => None
  | S fuel' =>
      let index := find string substring (index + 1) in
      if index =? -1 then Some indices
      else find_all_indices_loop fuel' string substring index
             (indices ++ [index])
  end.

Definition find_all_indices (fuel : nat) (string substring : str)
  : option (list Z) :=
  let indices := [] in
  let index := -1 in
  find_all_indices_loop fuel string substring index indices.


(** [find_all_indices(string, substring)] returns [r]: the loop reaches
    [break] with [r] for every amount of fuel beyond some bound. *)
Definition find_all_indices_returns (string substring : str) (r : list Z)
  : Prop :=
  exists fuel0 : nat, forall fuel : nat,
    (fuel0 <= fuel)%nat -> find_all_indices fuel string substring = Some r.

(** ** Specification vocabulary *)

(** [p] is a prefix of [s]; [p] is a suffix of [s]. *)
Definition is_prefix (p s : str) : Prop := exists rest, s = p ++ rest.
Definition is_suffix (p s : str) : Prop := exists rest, s = rest ++ p.

(** A structural character is one that is not alphanumeric. *)
Definition structural (c : ascii) : bool := negb (isalnum c).

(** The longest run of positions, counted from the start, at which two
    strings hold the same character and that character passes [ok]. *)
Fixpoint common_run (ok : ascii -> bool) (a b : str) : str :=
  match a, b with
  | x :: a', y :: b' =>
      if Ascii.eqb x y && ok x then x :: common_run ok a' b' else []
  | _, _ => []
  end.

Definition longest_common_prefix (a b : str) : str :=
  common_run (fun _ => true) a b.

Definition common_structural_suffix (a b : str) : str :=
  rev (common_run structural (rev a) (rev b)).

(** The longest common suffix of two strings, whatever its characters. *)
Definition longest_common_suffix (a b : str) : str :=
  rev (common_run (fun _ => true) (rev a) (rev b)).

(** The leading characters of a string that pass [ok], and what follows
    them. *)
Fixpoint take_while (ok : ascii -> bool) (s : str) : str :=
  match s with
  | [] => []
  | c :: s' => if ok c then c :: take_while ok s' else []
  end.

Fixpoint drop_while (ok : ascii -> bool) (s : str) : str :=
  match s with
  | [] => []
  | c :: s' => if ok c then drop_while ok s' else s
  end.

(** The trailing run of structural characters of a snapshot, and the
    snapshot without it. *)
Definition structural_tail (s : str) : str :=
  rev (take_while structural (rev s)).

Definition content (s : str) : str :=
  rev (drop_while structural (rev s)).

(** The spec's reference algorithm for the Diff Extractor. Stripping one
    trailing (leading) occurrence removes the occurrence at the end (start)
    of the string, and leaves a string that does not end (start) with it
    as it is. *)
Definition strip_trailing (suffix s : str) : str :=
  if startswith (rev s) (rev suffix)
  then firstn (List.length s - List.length suffix) s
  else s.

Definition strip_leading (prefix s : str) : str :=
  if startswith s prefix then skipn (List.length prefix) s else s.

Definition nonempty (s : str) : bool :=
  match s with
  | [] => false
  | _ :: _ => true
  end.

Definition DiffExtractor (current previous : str) : exc str :=
  suffix <- find_common_suffix current previous ;;
  let previous' := strip_trailing suffix previous in
  prefix <- find_common_prefix current previous' ;;
  let d := if nonempty suffix then strip_trailing suffix current
           else current in
  let d := if nonempty prefix then strip_leading prefix d else d in
  Return d.

(** The caller's loop over one stream: each snapshot is diffed against the
    stored previous one, then stored in its place; the diffs are
    concatenated in call order. *)
Fixpoint stream_diffs (previous : str) (snapshots : list str) : exc str :=
  match snapshots with
  | [] => Return []
  | current :: rest =>
      d <- extract_intermediate_diff current previous ;;
      ds <- stream_diffs current rest ;;
      Return (d ++ ds)
  end.

(** Monotonic growth, as the spec words it: the content of each snapshot
    extends the content of the one before. *)
Definition extends_content (previous current : str) : Prop :=
  is_prefix (content previous) (content current).

(** Growth in which, besides, the speculative structural tail stays the
    same. *)
Definition extends_under_same_tail (previous current : str) : Prop :=
  extends_content previous current
  /\ structural_tail current = structural_tail previous.

(** Growth in which closers may be dropped but none is added: the
    content gains [gained]; the structural tail loses its leading part
    [dropped] and keeps the rest; and what follows the previous content in
    the current snapshot does not begin like the dropped closers. *)
Definition extends_dropping_closers (previous current : str) : Prop :=
  exists gained dropped : str,
    content current = content previous ++ gained
    /\ structural_tail previous = dropped ++ structural_tail current
    /\ longest_common_prefix dropped (gained ++ structural_tail current)
       = [].

(** Every snapshot of [snapshots], started from [previous], is related by
    [R] to the one before it. *)
Fixpoint chain (R : str -> str -> Prop) (previous : str)
  (snapshots : list str) : Prop :=
  match snapshots with
  | [] => True
  | current :: rest => R previous current /\ chain R current rest
  end.

(** A string that ends in structural punctuation: it is not empty and
    its last character is not alphanumeric. *)
Definition ends_in_structural (a : str) : Prop :=
  exists body c, a = body ++ [c] /\ isalnum c = false.

(** The offsets [0 .. len(s)] at which [t] starts in [s], in increasing
    order. *)
Definition occurs_at (s t : str) (i : Z) : bool :=
  startswith (skipn (Z.to_nat i) s) t.

Definition occurrences (s t : str) (lo : Z) : list Z :=
  filter (occurs_at s t) (range lo (len s + 1)).

(** The snapshots of the spec's literal scenarios. *)
Definition fruit_ap : str :=
  lit "{" ++ dquote :: lit "fruit" ++ dquote :: lit ": " ++ dquote
    :: lit "ap" ++ dquote :: lit "}".

Definition fruit_apple : str :=
  lit "{" ++ dquote :: lit "fruit" ++ dquote :: lit ": " ++ dquote
    :: lit "apple" ++ dquote :: lit "}".

Definition fruit_ap_open : str :=
  lit "{" ++ dquote :: lit "fruit" ++ dquote :: lit ": " ++ dquote
    :: lit "ap".

Definition fruit_apple_open : str :=
  lit "{" ++ dquote :: lit "fruit" ++ dquote :: lit ": " ++ dquote
    :: lit "apple".

(** Further renderings of a growing object, used as concrete streams. *)
Definition fruit_apple_pie_n : str :=
  lit "{" ++ dquote :: lit "fruit" ++ dquote :: lit ": " ++ dquote
    :: lit "apple pie" ++ dquote :: lit ", " ++ dquote :: lit "n" ++ dquote
    :: lit ": 1}".

Definition json_a1 : str :=
  lit "{" ++ dquote :: lit "a" ++ dquote :: lit ": 1}".

Definition json_a1_bx : str :=
  lit "{" ++ dquote :: lit "a" ++ dquote :: lit ": 1, " ++ dquote
    :: lit "b" ++ dquote :: lit ": " ++ dquote :: lit "x" ++ dquote
    :: lit "}".

Definition json_ax : str :=
  lit "{" ++ dquote :: lit "a" ++ dquote :: lit ": " ++ dquote
    :: lit "x" ++ dquote :: lit "}".

Definition json_ax_b1 : str :=
  lit "{" ++ dquote :: lit "a" ++ dquote :: lit ": " ++ dquote
    :: lit "x" ++ dquote :: lit ", " ++ dquote :: lit "b" ++ dquote
    :: lit ": 1}".

(** * Proofs *)

(** ** Indexing *)

Lemma len_app (a b : str) : len (a ++ b) = len a + len b.
Proof. unfold len. rewrite length_app. lia. Qed.

Lemma len_nonneg (s : str) : 0 <= len s.
Proof. unfold len. lia. Qed.

Lemma getitem_nth (s : str) (j : nat) (c : ascii) :
  nth_error s j = Some c -> getitem s (Z.of_nat j) = Return c.
Proof.
  intros Hnth.
  assert (Hlt : (j < List.length s)%nat)
    by (apply nth_error_Some; congruence).
  unfold getitem, len.
  destruct (Z.ltb_spec (Z.of_nat j) 0) as [Hneg | _]; [lia|].
  destruct (Z.leb_spec 0 (Z.of_nat j)) as [_ | Hneg]; [|lia].
  destruct (Z.ltb_spec (Z.of_nat j) (Z.of_nat (List.length s)))
    as [_ | Hge]; [|lia].
  cbn [andb]. rewrite Nat2Z.id, Hnth. reflexivity.
Qed.

Lemma getitem_nth_from_end (s : str) (j : nat) (c : ascii) :
  nth_error s j = Some c ->
  getitem s (- Z.of_nat (List.length s - j)) = Return c.
Proof.
  intros Hnth.
  assert (Hlt : (j < List.length s)%nat)
    by (apply nth_error_Some; congruence).
  unfold getitem, len.
  destruct (Z.ltb_spec (- Z.of_nat (List.length s - j)) 0) as [_ | Hpos];
    [|lia].
  replace (- Z.of_nat (List.length s - j) + Z.of_nat (List.length s))
    with (Z.of_nat j) by lia.
  destruct (Z.leb_spec 0 (Z.of_nat j)) as [_ | Hneg]; [|lia].
  destruct (Z.ltb_spec (Z.of_nat j) (Z.of_nat (List.length s)))
    as [_ | Hge]; [|lia].
  cbn [andb]. rewrite Nat2Z.id, Hnth. reflexivity.
Qed.

Lemma getitem_at (s pre post : str) (c : ascii) :
  s = pre ++ c :: post ->
  getitem s (len pre) = Return c.
Proof.
  intros ->. apply getitem_nth.
  rewrite nth_error_app2 by lia.
  rewrite Nat.sub_diag. reflexivity.
Qed.

Lemma getitem_from_end (s pre post : str) (c : ascii) :
  rev s = pre ++ c :: post ->
  getitem s (- (len pre + 1)) = Return c.
Proof.
  intros Hrev.
  assert (Hs : s = rev post ++ c :: rev pre).
  { rewrite <- (rev_involutive s), Hrev, rev_app_distr. cbn [rev].
    rewrite <- app_assoc. reflexivity. }
  subst s.
  replace (len pre + 1)
    with (Z.of_nat (List.length (rev post ++ c :: rev pre)
                    - List.length (rev post))).
  - apply getitem_nth_from_end.
    rewrite nth_error_app2 by lia.
    rewrite Nat.sub_diag. reflexivity.
  - unfold len. rewrite length_app. cbn [List.length].
    rewrite !length_rev. lia.
Qed.

(** ** Common runs *)

Lemma common_run_comm (ok : ascii -> bool) (a b : str) :
  common_run ok a b = common_run ok b a.
Proof.
  revert b. induction a as [|x a IH]; intros [|y b]; cbn; try reflexivity.
  destruct (Ascii.eqb x y) eqn:Exy.
  - apply Ascii.eqb_eq in Exy. subst y. rewrite Ascii.eqb_refl. cbn.
    rewrite IH. reflexivity.
  - rewrite Ascii.eqb_sym, Exy. reflexivity.
Qed.

Lemma common_run_split (ok : ascii -> bool) (a b : str) :
  exists a' b',
    a = common_run ok a b ++ a' /\ b = common_run ok a b ++ b'
    /\ common_run ok a' b' = [].
Proof.
  revert b. induction a as [|x a IH]; intros b.
  - exists [], b. repeat split.
  - destruct b as [|y b].
    + exists (x :: a), []. repeat split.
    + cbn [common_run].
      destruct (Ascii.eqb x y && ok x) eqn:E.
      * apply andb_true_iff in E as [Exy Hok].
        apply Ascii.eqb_eq in Exy. subst y.
        destruct (IH b) as (a' & b' & Ha & Hb & Hstop).
        exists a', b'. cbn. rewrite <- Ha, <- Hb. repeat split. exact Hstop.
      * exists (x :: a), (y :: b). repeat split. cbn. rewrite E. reflexivity.
Qed.

Lemma common_run_all (ok : ascii -> bool) (a b : str) :
  Forall (fun c => ok c = true) (common_run ok a b).
Proof.
  revert b. induction a as [|x a IH]; intros [|y b]; cbn; try constructor.
  destruct (Ascii.eqb x y && ok x) eqn:E; constructor.
  - apply andb_true_iff in E. tauto.
  - apply IH.
Qed.

Lemma common_run_app (ok : ascii -> bool) (t a b : str) :
  Forall (fun c => ok c = true) t ->
  common_run ok (t ++ a) (t ++ b) = t ++ common_run ok a b.
Proof.
  induction 1 as [|c t Hc _ IH]; cbn; [reflexivity|].
  rewrite Ascii.eqb_refl, Hc, IH. reflexivity.
Qed.

Lemma common_run_stop (ok : ascii -> bool) (a b : str) :
  common_run ok a b = [] ->
  a = [] \/ b = []
  \/ exists x a' y b', a = x :: a' /\ b = y :: b' /\ (x <> y \/ ok x = false).
Proof.
  destruct a as [|x a]; [tauto|]. destruct b as [|y b]; [tauto|].
  cbn. intros H. right. right. exists x, a, y, b. repeat split.
  destruct (Ascii.eqb x y) eqn:Exy.
  - destruct (ok x); [discriminate | tauto].
  - left. intros ->. rewrite Ascii.eqb_refl in Exy. discriminate.
Qed.

Lemma all_true (t : str) :
  Forall (fun c => (fun _ : ascii => true) c = true) t.
Proof. induction t; constructor; auto. Qed.

Lemma app_same_length_inv (p q x y : str) :
  p ++ x = q ++ y -> (List.length p <= List.length q)%nat ->
  exists r, q = p ++ r.
Proof.
  revert q. induction p as [|c p IH]; intros q H Hlen.
  - exists q. reflexivity.
  - destruct q as [|d q]; [cbn in Hlen; lia|].
    cbn in H. injection H as -> H. cbn in Hlen.
    destruct (IH q H) as [r ->]; [lia|]. exists r. reflexivity.
Qed.

(** A common prefix whose characters all pass [ok] lies within the common
    run. *)
Lemma common_run_longest (ok : ascii -> bool) (t a b : str) :
  is_prefix t a -> is_prefix t b -> Forall (fun c => ok c = true) t ->
  is_prefix t (common_run ok a b).
Proof.
  intros [a' ->] [b' ->] Hok. rewrite common_run_app by exact Hok.
  eexists. reflexivity.
Qed.

Lemma is_prefix_length (p s : str) :
  is_prefix p s -> (List.length p <= List.length s)%nat.
Proof. intros [r ->]. rewrite length_app. lia. Qed.

Lemma is_suffix_rev (p s : str) : is_suffix p s <-> is_prefix (rev p) (rev s).
Proof.
  split.
  - intros [r ->]. exists (rev r). apply rev_app_distr.
  - intros [r H]. exists (rev r).
    rewrite <- (rev_involutive s), H, rev_app_distr, rev_involutive.
    reflexivity.
Qed.

Lemma Forall_rev_iff (P : ascii -> Prop) (s : str) :
  Forall P (rev s) <-> Forall P s.
Proof.
  rewrite !Forall_forall. split; intros H c Hc; apply H.
  - apply in_rev in Hc. exact Hc.
  - apply in_rev. exact Hc.
Qed.

(** ** The matchers compute the common runs *)

Lemma find_common_prefix_loop_run (s1 s2 : str) :
  forall a b pre1 pre2 acc : str,
    s1 = pre1 ++ a -> s2 = pre2 ++ b -> len pre1 = len pre2 ->
    find_common_prefix_loop s1 s2
      (range_from (len pre1) (Nat.min (List.length a) (List.length b))) acc
    = Return (acc ++ longest_common_prefix a b).
Proof.
  induction a as [|x a IH]; intros b pre1 pre2 acc H1 H2 Hlen.
  - cbn. rewrite app_nil_r. reflexivity.
  - destruct b as [|y b].
    + cbn. rewrite app_nil_r. reflexivity.
    + cbn [List.length Nat.min range_from find_common_prefix_loop].
      rewrite (getitem_at s1 pre1 a x H1).
      rewrite Hlen, (getitem_at s2 pre2 b y H2). cbn [bind].
      unfold longest_common_prefix. cbn [common_run].
      destruct (Ascii.eqb x y) eqn:Exy; cbn [andb].
      * apply Ascii.eqb_eq in Exy. subst y.
        rewrite <- Hlen.
        replace (len pre1 + 1) with (len (pre1 ++ [x]))
          by (rewrite len_app; reflexivity).
        rewrite (IH b (pre1 ++ [x]) (pre2 ++ [x]) (acc ++ [x])).
        -- rewrite <- app_assoc. reflexivity.
        -- rewrite <- app_assoc. exact H1.
        -- rewrite <- app_assoc. exact H2.
        -- rewrite !len_app. lia.
      * rewrite app_nil_r. reflexivity.
Qed.

Lemma find_common_prefix_spec (a b : str) :
  find_common_prefix a b = Return (longest_common_prefix a b).
Proof.
  unfold find_common_prefix, range.
  replace (Z.to_nat (Z.min (len a) (len b) - 0))
    with (Nat.min (List.length a) (List.length b)) by (unfold len; lia).
  apply (find_common_prefix_loop_run a b a b [] [] []); reflexivity.
Qed.

Lemma find_common_suffix_loop_run (s1 s2 : str) :
  forall a b pre1 pre2 acc : str,
    rev s1 = pre1 ++ a -> rev s2 = pre2 ++ b -> len pre1 = len pre2 ->
    find_common_suffix_loop s1 s2
      (range_from (len pre1 + 1) (Nat.min (List.length a) (List.length b)))
      acc
    = Return (rev (common_run structural a b) ++ acc).
Proof.
  induction a as [|x a IH]; intros b pre1 pre2 acc H1 H2 Hlen.
  - reflexivity.
  - destruct b as [|y b]; [reflexivity|].
    cbn [List.length Nat.min range_from find_common_suffix_loop].
    rewrite (getitem_from_end s1 pre1 a x H1).
    rewrite Hlen, (getitem_from_end s2 pre2 b y H2). cbn [bind common_run].
    destruct (Ascii.eqb x y) eqn:Exy; cbn [andb bind]; [|reflexivity].
    apply Ascii.eqb_eq in Exy. subst y. fold (structural x).
    destruct (structural x); [|reflexivity].
    rewrite <- Hlen.
    replace (len pre1 + 1 + 1) with (len (pre1 ++ [x]) + 1)
      by (rewrite len_app; reflexivity).
    rewrite (IH b (pre1 ++ [x]) (pre2 ++ [x]) (x :: acc)).
    + cbn [rev]. rewrite <- app_assoc. reflexivity.
    + rewrite <- app_assoc. exact H1.
    + rewrite <- app_assoc. exact H2.
    + rewrite !len_app. lia.
Qed.

Lemma find_common_suffix_spec (a b : str) :
  find_common_suffix a b = Return (common_structural_suffix a b).
Proof.
  unfold find_common_suffix, range, common_structural_suffix.
  replace (Z.to_nat (Z.min (len a) (len b) + 1 - 1))
    with (Nat.min (List.length (rev a)) (List.length (rev b)))
    by (rewrite !length_rev; unfold len; lia).
  pose proof (find_common_suffix_loop_run a b (rev a) (rev b) [] [] []
                eq_refl eq_refl eq_refl) as Hrun.
  rewrite app_nil_r in Hrun. exact Hrun.
Qed.

(** ** [startswith], [find], slices and [replace] *)

Lemma startswith_iff (s p : str) : startswith s p = true <-> is_prefix p s.
Proof.
  revert s. induction p as [|x p IH]; intros s; cbn.
  - split; [intros _; exists s; reflexivity | reflexivity].
  - destruct s as [|y s].
    + split; [discriminate | intros [r H]; discriminate].
    + rewrite andb_true_iff, Ascii.eqb_eq, IH. split.
      * intros [-> [r ->]]. exists r. reflexivity.
      * intros [r H]. injection H as -> ->. split; [reflexivity|].
        exists r. reflexivity.
Qed.

Lemma startswith_too_long (s p : str) :
  (List.length s < List.length p)%nat -> startswith s p = false.
Proof.
  intros Hlen. destruct (startswith s p) eqn:E; [|reflexivity].
  apply startswith_iff, is_prefix_length in E. lia.
Qed.

Lemma find_from_spec (sub : str) (s : str) :
  forall i : nat,
    match find_from s sub i with
    | Some j =>
        exists k : nat,
          j = (i + k)%nat /\ (k <= List.length s)%nat
          /\ startswith (skipn k s) sub = true
          /\ forall k', (k' < k)%nat -> startswith (skipn k' s) sub = false
    | None =>
        forall k, (k <= List.length s)%nat -> startswith (skipn k s) sub = false
    end.
Proof.
  induction s as [|c s IH]; intros i; cbn [find_from].
  - destruct (startswith [] sub) eqn:E.
    + exists 0%nat. repeat split; [lia | lia | exact E | lia].
    + intros k Hk. rewrite skipn_nil. exact E.
  - destruct (startswith (c :: s) sub) eqn:E.
    + exists 0%nat. repeat split; [lia | lia | exact E | lia].
    + specialize (IH (S i)). destruct (find_from s sub (S i)) as [j|].
      * destruct IH as (k & -> & Hk & Hocc & Hfirst).
        exists (S k). repeat split; [lia | cbn; lia | exact Hocc |].
        intros [|k'] Hk'; [exact E | cbn; apply Hfirst; lia].
      * intros [|k] Hk; [exact E | cbn; apply IH; cbn in Hk; lia].
Qed.

(** What [str.find] returns for a start offset within the string. *)
Lemma find_spec (s sub : str) (start : Z) :
  0 <= start <= len s ->
  (find s sub start = -1
   /\ forall i, start <= i <= len s -> occurs_at s sub i = false)
  \/ (start <= find s sub start <= len s
      /\ occurs_at s sub (find s sub start) = true
      /\ forall i, start <= i < find s sub start -> occurs_at s sub i = false).
Proof.
  intros Hstart. unfold find, occurs_at.
  destruct (Z.ltb_spec start 0) as [Hneg | _]; [lia|].
  destruct (Z.ltb_spec (len s) start) as [Hbeyond | _]; [lia|].
  pose proof (find_from_spec sub (skipn (Z.to_nat start) s) (Z.to_nat start))
    as Hscan.
  assert (Hrest : List.length (skipn (Z.to_nat start) s)
                  = (List.length s - Z.to_nat start)%nat)
    by apply length_skipn.
  unfold len in Hstart.
  destruct (find_from (skipn (Z.to_nat start) s) sub (Z.to_nat start))
    as [j|].
  - right. destruct Hscan as (k & -> & Hk & Hocc & Hfirst).
    rewrite skipn_skipn in Hocc. unfold len. repeat split; try lia.
    + rewrite Nat2Z.id, Nat.add_comm. exact Hocc.
    + intros i Hi.
      specialize (Hfirst (Z.to_nat i - Z.to_nat start)%nat).
      rewrite skipn_skipn in Hfirst.
      replace (Z.to_nat i - Z.to_nat start + Z.to_nat start)%nat
        with (Z.to_nat i) in Hfirst by lia.
      apply Hfirst. lia.
  - left. split; [reflexivity|]. intros i Hi.
    specialize (Hscan (Z.to_nat i - Z.to_nat start)%nat).
    rewrite skipn_skipn in Hscan.
    replace (Z.to_nat i - Z.to_nat start + Z.to_nat start)%nat
      with (Z.to_nat i) in Hscan by (unfold len in Hi; lia).
    apply Hscan. unfold len in Hi. lia.
Qed.

Lemma find_beyond (s sub : str) (start : Z) :
  len s < start -> find s sub start = -1.
Proof.
  intros Hstart. unfold find. pose proof (len_nonneg s).
  destruct (Z.ltb_spec start 0) as [Hneg | _]; [lia|].
  destruct (Z.ltb_spec (len s) start) as [_ | Hin]; [reflexivity | lia].
Qed.

Lemma find_leading (s p : str) : is_prefix p s -> find s p 0 = 0.
Proof.
  intros Hp. apply startswith_iff in Hp.
  unfold find. cbn [Z.ltb Z.compare Z.to_nat skipn].
  pose proof (len_nonneg s).
  destruct (Z.ltb_spec (len s) 0) as [Hneg | _]; [lia|].
  destruct s; cbn [find_from]; rewrite Hp; reflexivity.
Qed.

Lemma find_absent (s p : str) :
  (List.length s < List.length p)%nat -> find s p 0 = -1.
Proof.
  intros Hlen.
  destruct (find_spec s p 0) as [[H _] | (Hrange & Hocc & _)];
    [pose proof (len_nonneg s); lia | exact H |].
  unfold occurs_at in Hocc.
  rewrite startswith_too_long in Hocc; [discriminate|].
  rewrite length_skipn. lia.
Qed.

Lemma slice_within (s : str) (i j : Z) :
  0 <= i <= j -> j <= len s ->
  slice s i j = firstn (Z.to_nat (j - i)) (skipn (Z.to_nat i) s).
Proof.
  intros Hij Hj. unfold slice.
  destruct (Z.ltb_spec i 0) as [Hneg | _]; [lia|].
  destruct (Z.ltb_spec j 0) as [Hneg | _]; [lia|].
  rewrite !Z.max_r, !Z.min_r by lia. reflexivity.
Qed.

Lemma slice_to_end (s : str) (i : Z) :
  0 <= i <= len s -> slice s i (len s) = skipn (Z.to_nat i) s.
Proof.
  intros Hi. rewrite slice_within by lia.
  apply firstn_all2. rewrite length_skipn. unfold len. lia.
Qed.

Lemma skipn_length_app (p x : str) : skipn (List.length p) (p ++ x) = x.
Proof. induction p as [|c p IH]; cbn; [reflexivity | exact IH]. Qed.

Lemma firstn_length_app (p x : str) : firstn (List.length p) (p ++ x) = p.
Proof.
  induction p as [|c p IH]; cbn; [reflexivity | rewrite IH; reflexivity].
Qed.

(** Replacing, once, a string that leads [s] removes that leading occurrence. *)
Lemma replace_1_leading (p x : str) : replace_1 (p ++ x) p [] = x.
Proof.
  unfold replace_1. rewrite find_leading by (exists x; reflexivity).
  cbn [Z.eqb Z.add].
  assert (Hlen : 0 <= len p <= len (p ++ x))
    by (rewrite len_app; pose proof (len_nonneg p);
        pose proof (len_nonneg x); lia).
  rewrite (slice_within (p ++ x) 0 0) by lia.
  rewrite slice_to_end by exact Hlen.
  cbn [Z.sub Z.opp Z.add Z.to_nat firstn app]. unfold len.
  rewrite Nat2Z.id. apply skipn_length_app.
Qed.

Lemma replace_1_absent (s p : str) :
  (List.length s < List.length p)%nat -> replace_1 s p [] = s.
Proof.
  intros Hlen. unfold replace_1. rewrite find_absent by exact Hlen.
  reflexivity.
Qed.

Lemma strip_leading_app (p x : str) : strip_leading p (p ++ x) = x.
Proof.
  unfold strip_leading.
  replace (startswith (p ++ x) p) with true
    by (symmetry; apply startswith_iff; exists x; reflexivity).
  apply skipn_length_app.
Qed.

Lemma strip_leading_absent (s p : str) :
  (List.length s < List.length p)%nat -> strip_leading p s = s.
Proof.
  intros Hlen. unfold strip_leading.
  rewrite startswith_too_long by exact Hlen. reflexivity.
Qed.

(** The single replacement of a prefix of [s ++ x] inside [s] removes a
    leading occurrence when there is one, and nothing otherwise: the
    prefix cannot occur further inside [s] without also leading it. *)
Lemma replace_1_strip_leading (s x p : str) :
  is_prefix p (s ++ x) -> replace_1 s p [] = strip_leading p s.
Proof.
  intros [r Hp].
  destruct (Nat.le_gt_cases (List.length p) (List.length s)) as [Hle | Hgt].
  - destruct (app_same_length_inv p s r x (eq_sym Hp) Hle) as [s' ->].
    rewrite replace_1_leading, strip_leading_app. reflexivity.
  - rewrite replace_1_absent, strip_leading_absent by exact Hgt.
    reflexivity.
Qed.

Lemma strip_trailing_app (x p : str) : strip_trailing p (x ++ p) = x.
Proof.
  unfold strip_trailing. rewrite rev_app_distr.
  replace (startswith (rev p ++ rev x) (rev p)) with true
    by (symmetry; apply startswith_iff; exists (rev x); reflexivity).
  rewrite length_app, Nat.add_sub. apply firstn_length_app.
Qed.

Lemma strip_leading_nil (s : str) : strip_leading [] s = s.
Proof. reflexivity. Qed.

Lemma strip_trailing_nil (s : str) : strip_trailing [] s = s.
Proof.
  pose proof (strip_trailing_app s []) as H.
  rewrite app_nil_r in H. exact H.
Qed.

(** The replacement on the reversed strings removes the suffix at the end. *)
Lemma replace_1_reversed (x p : str) :
  reversed (replace_1 (reversed (x ++ p)) (reversed p) []) = x.
Proof.
  unfold reversed. rewrite rev_app_distr, replace_1_leading.
  apply rev_involutive.
Qed.

(** ** The diff extractor *)

Lemma replace_1_reversed_eq (s x p : str) :
  s = x ++ p -> reversed (replace_1 (reversed s) (reversed p) []) = x.
Proof. intros ->. apply replace_1_reversed. Qed.

Lemma len_zero_iff (s : str) : (len s =? 0) = negb (nonempty s).
Proof. destruct s; reflexivity. Qed.

Lemma longest_common_prefix_l (a b : str) :
  is_prefix (longest_common_prefix a b) a.
Proof.
  unfold longest_common_prefix.
  destruct (common_run_split (fun _ => true) a b) as (a' & _ & Ha & _).
  exists a'. exact Ha.
Qed.

Lemma longest_common_prefix_r (a b : str) :
  is_prefix (longest_common_prefix a b) b.
Proof.
  unfold longest_common_prefix.
  destruct (common_run_split (fun _ => true) a b) as (_ & b' & _ & Hb & _).
  exists b'. exact Hb.
Qed.

(** The diff is what is left of [curr] once the common structural suffix
    is cut from its end and the prefix shared with the suffix-stripped
    [old] is cut from its start, when that prefix still fits. *)
Lemma extract_intermediate_diff_spec (curr old : str) :
  exists curr' old' : str,
    curr = curr' ++ common_structural_suffix curr old
    /\ old = old' ++ common_structural_suffix curr old
    /\ extract_intermediate_diff curr old
       = Return (strip_leading (longest_common_prefix curr old') curr').
Proof.
  unfold extract_intermediate_diff. rewrite find_common_suffix_spec.
  cbn [bind]. unfold common_structural_suffix.
  destruct (common_run_split structural (rev curr) (rev old))
    as (a' & b' & Ha & Hb & _).
  remember (common_run structural (rev curr) (rev old)) as run eqn:Hrun.
  assert (Hcurr : curr = rev a' ++ rev run)
    by (rewrite <- rev_app_distr, <- Ha, rev_involutive; reflexivity).
  assert (Hold : old = rev b' ++ rev run)
    by (rewrite <- rev_app_distr, <- Hb, rev_involutive; reflexivity).
  exists (rev a'), (rev b'). split; [exact Hcurr|]. split; [exact Hold|].
  rewrite (replace_1_reversed_eq old (rev b') (rev run) Hold).
  rewrite (replace_1_reversed_eq curr (rev a') (rev run) Hcurr).
  rewrite find_common_prefix_spec. cbn [bind]. f_equal.
  assert (Hcut : (if len (rev run) =? 0 then curr else rev a') = rev a').
  { destruct (rev run) eqn:Erun; [|reflexivity].
    cbn. rewrite Hcurr at 1. apply app_nil_r. }
  rewrite Hcut, len_zero_iff.
  destruct (longest_common_prefix curr (rev b')) as [|c p] eqn:Ep.
  - reflexivity.
  - cbn [nonempty negb]. apply (replace_1_strip_leading _ (rev run)).
    rewrite <- Hcurr, <- Ep. apply longest_common_prefix_l.
Qed.

(** The same computation, by the spec's reference algorithm. *)
Lemma DiffExtractor_spec (current previous : str) :
  exists current' previous' : str,
    current = current' ++ common_structural_suffix current previous
    /\ previous = previous' ++ common_structural_suffix current previous
    /\ DiffExtractor current previous
       = Return (strip_leading (longest_common_prefix current previous')
                   current').
Proof.
  destruct (extract_intermediate_diff_spec current previous)
    as (c' & p' & Hc & Hp & _).
  exists c', p'. split; [exact Hc|]. split; [exact Hp|].
  unfold DiffExtractor. rewrite find_common_suffix_spec. cbn [bind].
  remember (common_structural_suffix current previous) as sfx eqn:Hsfx.
  rewrite Hp at 1. rewrite strip_trailing_app.
  rewrite find_common_prefix_spec. cbn [bind]. f_equal.
  assert (Hcut : (if nonempty sfx then strip_trailing sfx current
                  else current) = c').
  { destruct sfx; cbn [nonempty].
    - rewrite Hc at 1. apply app_nil_r.
    - rewrite Hc at 1. apply strip_trailing_app. }
  rewrite Hcut.
  destruct (longest_common_prefix current p'); reflexivity.
Qed.

Lemma common_run_nil_r (ok : ascii -> bool) (a : str) : common_run ok a [] = [].
Proof. destruct a; reflexivity. Qed.

Lemma longest_common_prefix_of_prefix (a r : str) :
  longest_common_prefix a (a ++ r) = a.
Proof.
  unfold longest_common_prefix.
  rewrite <- (app_nil_r a) at 1.
  rewrite common_run_app by apply all_true.
  apply app_nil_r.
Qed.

Lemma structural_false_iff (c : ascii) :
  structural c = true <-> isalnum c = false.
Proof. unfold structural. destruct (isalnum c); cbn; intuition congruence. Qed.

Lemma Forall_structural (s : str) :
  Forall (fun c => structural c = true) s
  <-> Forall (fun c => isalnum c = false) s.
Proof.
  rewrite !Forall_forall.
  split; intros H c Hc; apply structural_false_iff, H, Hc.
Qed.

Lemma common_structural_suffix_l (a b : str) :
  is_suffix (common_structural_suffix a b) a.
Proof.
  apply is_suffix_rev. unfold common_structural_suffix.
  rewrite rev_involutive.
  destruct (common_run_split structural (rev a) (rev b)) as (a' & _ & Ha & _).
  exists a'. exact Ha.
Qed.

Lemma common_structural_suffix_comm (a b : str) :
  common_structural_suffix a b = common_structural_suffix b a.
Proof.
  unfold common_structural_suffix. rewrite common_run_comm. reflexivity.
Qed.

Lemma common_structural_suffix_all (a b : str) :
  Forall (fun c => isalnum c = false) (common_structural_suffix a b).
Proof.
  apply Forall_structural, Forall_rev_iff, common_run_all.
Qed.

(** ** The matchers: what they return *)

(** C3. For every pair of strings, [find_common_prefix] returns their
    longest common prefix: the result is a prefix of both, no common
    prefix is longer, it is empty when the first characters differ, and it
    is the shorter string when that string is a prefix of the other; on
    the spec's literal scenario it returns the text up to and including
    [ap]. *)
Theorem find_common_prefix_longest :
  (forall a b : str, exists p : str,
      find_common_prefix a b = Return p
      /\ is_prefix p a /\ is_prefix p b
      /\ (forall q : str, is_prefix q a -> is_prefix q b ->
            (List.length q <= List.length p)%nat)
      /\ (forall x a' y b', a = x :: a' -> b = y :: b' -> x <> y -> p = [])
      /\ (is_prefix a b -> p = a)
      /\ (is_prefix b a -> p = b))
  /\ find_common_prefix fruit_ap fruit_apple = Return fruit_ap_open.
Proof.
  split; [|vm_compute; reflexivity].
  intros a b. exists (longest_common_prefix a b).
  split; [apply find_common_prefix_spec|].
  split; [apply longest_common_prefix_l|].
  split; [apply longest_common_prefix_r|].
  split; [|split; [|split]].
  - intros q Hqa Hqb. apply is_prefix_length.
    apply common_run_longest; [exact Hqa | exact Hqb | apply all_true].
  - intros x a' y b' -> -> Hxy. unfold longest_common_prefix. cbn.
    destruct (Ascii.eqb x y) eqn:Exy; [|reflexivity].
    apply Ascii.eqb_eq in Exy. contradiction.
  - intros [r ->]. apply longest_common_prefix_of_prefix.
  - intros [r ->]. unfold longest_common_prefix. rewrite common_run_comm.
    apply longest_common_prefix_of_prefix.
Qed.

(** C4. For every pair of strings, [find_common_suffix] returns the
    longest trailing run of characters that agree at the same offset from
    the end and are not alphanumeric: the result is a suffix of both, all
    its characters are non-alphanumeric, the scan stopped because a string
    was exhausted or the next characters differ or are alphanumeric, and
    no common non-alphanumeric suffix is longer; on the spec's literal
    scenario it returns the closing quote and brace. *)
Theorem find_common_suffix_structural_run :
  (forall a b : str, exists r : str,
      find_common_suffix a b = Return r
      /\ is_suffix r a /\ is_suffix r b
      /\ Forall (fun c => isalnum c = false) r
      /\ (forall a' b' : str, a = a' ++ r -> b = b' ++ r ->
            a' = [] \/ b' = []
            \/ exists a'' x b'' y,
                a' = a'' ++ [x] /\ b' = b'' ++ [y]
                /\ (x <> y \/ isalnum x = true))
      /\ (forall t : str, is_suffix t a -> is_suffix t b ->
            Forall (fun c => isalnum c = false) t ->
            (List.length t <= List.length r)%nat))
  /\ find_common_suffix fruit_ap fruit_apple = Return (dquote :: lit "}").
Proof.
  split; [|vm_compute; reflexivity].
  intros a b. exists (common_structural_suffix a b).
  split; [apply find_common_suffix_spec|].
  split; [apply common_structural_suffix_l|].
  split; [rewrite common_structural_suffix_comm;
          apply common_structural_suffix_l|].
  split; [apply common_structural_suffix_all|].
  split.
  - intros a' b' Ha Hb. unfold common_structural_suffix in Ha, Hb.
    destruct (common_run_split structural (rev a) (rev b))
      as (ra & rb & Hra & Hrb & Hstop).
    remember (common_run structural (rev a) (rev b)) as run eqn:Hrun.
    assert (Ea : a = rev ra ++ rev run)
      by (rewrite <- rev_app_distr, <- Hra, rev_involutive; reflexivity).
    assert (Eb : b = rev rb ++ rev run)
      by (rewrite <- rev_app_distr, <- Hrb, rev_involutive; reflexivity).
    rewrite Ea in Ha at 1. apply app_inv_tail in Ha.
    rewrite Eb in Hb at 1. apply app_inv_tail in Hb. subst a' b'.
    destruct (common_run_stop structural ra rb Hstop)
      as [-> | [-> | (x & ra' & y & rb' & -> & -> & Hdiff)]];
      [left; reflexivity | right; left; reflexivity |].
    right. right. exists (rev ra'), x, (rev rb'), y.
    repeat split. destruct Hdiff as [Hxy | Hx]; [left; exact Hxy|].
    right. unfold structural in Hx. destruct (isalnum x); [reflexivity|].
    discriminate.
  - intros t Hta Htb Ht.
    unfold common_structural_suffix.
    rewrite length_rev, <- (length_rev t).
    apply is_prefix_length, common_run_longest.
    + apply is_suffix_rev, Hta.
    + apply is_suffix_rev, Htb.
    + apply Forall_rev_iff, Forall_structural, Ht.
Qed.

(** C6. Both matchers are symmetric in their two arguments. *)
Theorem matchers_symmetric :
  forall a b : str,
    find_common_prefix a b = find_common_prefix b a
    /\ find_common_suffix a b = find_common_suffix b a.
Proof.
  intros a b. split.
  - rewrite !find_common_prefix_spec. unfold longest_common_prefix.
    rewrite common_run_comm. reflexivity.
  - rewrite !find_common_suffix_spec, common_structural_suffix_comm.
    reflexivity.
Qed.

(** ** The diff extractor: what it returns *)

Lemma slice_middle (p d x : str) :
  slice (p ++ d ++ x) (len p) (len p + len d) = d.
Proof.
  pose proof (len_nonneg p). pose proof (len_nonneg d).
  pose proof (len_nonneg x).
  rewrite slice_within by (rewrite ?len_app; lia).
  replace (len p + len d - len p) with (len d) by lia.
  unfold len. rewrite !Nat2Z.id, skipn_length_app.
  apply firstn_length_app.
Qed.

(** Diffing a snapshot against itself yields nothing, whatever it ends
    in. *)
Lemma extract_intermediate_diff_same (a : str) :
  extract_intermediate_diff a a = Return [].
Proof.
  destruct (extract_intermediate_diff_spec a a) as (c' & o' & Hc & Ho & ->).
  remember (common_structural_suffix a a) as sfx eqn:Hsfx.
  rewrite Hc in Ho at 1. apply app_inv_tail in Ho. subst o'.
  unfold longest_common_prefix. rewrite common_run_comm.
  fold (longest_common_prefix c' a).
  rewrite Hc, longest_common_prefix_of_prefix.
  rewrite <- (app_nil_r c') at 2. rewrite strip_leading_app. reflexivity.
Qed.

(** C2. For every pair of strings, [extract_intermediate_diff] returns
    what the spec's reference algorithm returns: the common suffix is cut
    once from the end of both strings, the prefix common to [current] and
    the stripped [previous] is computed, and that prefix is cut once from
    the start of the stripped [current]; on the spec's literal scenario the
    diff is [ple]. *)
Theorem extract_intermediate_diff_reference :
  (forall current previous : str,
      extract_intermediate_diff current previous
      = DiffExtractor current previous)
  /\ extract_intermediate_diff fruit_apple fruit_ap = Return (lit "ple").
Proof.
  split; [|vm_compute; reflexivity].
  intros current previous.
  destruct (extract_intermediate_diff_spec current previous)
    as (c1 & p1 & Hc1 & Hp1 & ->).
  destruct (DiffExtractor_spec current previous)
    as (c2 & p2 & Hc2 & Hp2 & ->).
  rewrite Hc1 in Hc2 at 1. apply app_inv_tail in Hc2.
  rewrite Hp1 in Hp2 at 1. apply app_inv_tail in Hp2.
  subst c2 p2. reflexivity.
Qed.

(** C7. For every string that ends in structural punctuation, the diff of
    the string against itself is the empty string. *)
Theorem extract_intermediate_diff_unchanged :
  forall a : str,
    ends_in_structural a -> extract_intermediate_diff a a = Return [].
Proof.
  intros a [body [c [-> _]]]. apply extract_intermediate_diff_same.
Qed.

Lemma extract_intermediate_diff_unchanged_witness :
  ends_in_structural fruit_ap
  /\ extract_intermediate_diff fruit_ap fruit_ap = Return [].
Proof.
  assert (H : ends_in_structural fruit_ap).
  { exists (fruit_ap_open ++ [dquote]), "}"%char. split; reflexivity. }
  split; [exact H | exact (extract_intermediate_diff_unchanged fruit_ap H)].
Defined.

(** C8. For every pair of strings, the diff is a contiguous substring of
    [curr]: the replacement on the reversed string deletes exactly the
    common suffix at the end of [curr]; the single replacement of the
    prefix either finds it at offset 0 of the suffix-stripped string and
    removes that leading occurrence, or does not find it at all; so the
    diff is [curr[i:j]] for some [0 <= i <= j <= len(curr)]. *)
Theorem extract_intermediate_diff_substring :
  forall curr old : str,
  exists (suffix old' prefix curr' diff : str) (i j : Z),
    find_common_suffix curr old = Return suffix
    /\ curr = curr' ++ suffix
    /\ reversed (replace_1 (reversed curr) (reversed suffix) []) = curr'
    /\ reversed (replace_1 (reversed old) (reversed suffix) []) = old'
    /\ find_common_prefix curr old' = Return prefix
    /\ extract_intermediate_diff curr old = Return diff
    /\ ((find curr' prefix 0 = -1 /\ diff = curr')
        \/ (find curr' prefix 0 = 0 /\ curr' = prefix ++ diff))
    /\ 0 <= i <= j /\ j <= len curr /\ diff = slice curr i j.
Proof.
  intros curr old.
  destruct (extract_intermediate_diff_spec curr old)
    as (c' & o' & Hc & Ho & Hdiff).
  remember (common_structural_suffix curr old) as sfx eqn:Hsfx.
  pose proof (longest_common_prefix_l curr o') as [r Hr].
  remember (longest_common_prefix curr o') as pfx eqn:Hpfx.
  pose proof (len_nonneg c') as Hc'. pose proof (len_nonneg sfx) as Hs.
  destruct (Nat.le_gt_cases (List.length pfx) (List.length c'))
    as [Hle | Hgt].
  - assert (Hfit : exists d, c' = pfx ++ d).
    { apply (app_same_length_inv pfx c' r sfx); [|exact Hle].
      rewrite <- Hc, <- Hr. reflexivity. }
    destruct Hfit as [d ->].
    exists sfx, o', pfx, (pfx ++ d), d, (len pfx), (len pfx + len d).
    pose proof (len_nonneg pfx). pose proof (len_nonneg d).
    split; [rewrite Hsfx; apply find_common_suffix_spec|].
    split; [exact Hc|].
    split; [apply (replace_1_reversed_eq _ _ _ Hc)|].
    split; [apply (replace_1_reversed_eq _ _ _ Ho)|].
    split; [rewrite Hpfx; apply find_common_prefix_spec|].
    split; [rewrite Hdiff, strip_leading_app; reflexivity|].
    split; [right; split;
            [apply find_leading; exists d; reflexivity | reflexivity]|].
    split; [lia|].
    split; [rewrite Hc, !len_app; lia|].
    rewrite Hc at 1. rewrite <- app_assoc. symmetry. apply slice_middle.
  - exists sfx, o', pfx, c', c', 0, (len c').
    split; [rewrite Hsfx; apply find_common_suffix_spec|].
    split; [exact Hc|].
    split; [apply (replace_1_reversed_eq _ _ _ Hc)|].
    split; [apply (replace_1_reversed_eq _ _ _ Ho)|].
    split; [rewrite Hpfx; apply find_common_prefix_spec|].
    split; [rewrite Hdiff, strip_leading_absent by exact Hgt; reflexivity|].
    split; [left; split; [apply find_absent; exact Hgt | reflexivity]|].
    split; [lia|].
    split; [rewrite Hc, len_app; lia|].
    rewrite Hc at 1. symmetry.
    apply (slice_middle [] c' sfx).
Qed.

(** ** Ranges and occurrences *)

Lemma range_from_In (n : nat) :
  forall lo i : Z, In i (range_from lo n) <-> lo <= i < lo + Z.of_nat n.
Proof.
  induction n as [|n IH]; intros lo i; cbn [range_from In].
  - lia.
  - rewrite IH. lia.
Qed.

Lemma range_In (lo hi i : Z) : In i (range lo hi) <-> lo <= i < hi.
Proof. unfold range. rewrite range_from_In. lia. Qed.

Lemma range_from_app (n m : nat) :
  forall lo : Z,
    range_from lo (n + m) = range_from lo n ++ range_from (lo + Z.of_nat n) m.
Proof.
  induction n as [|n IH]; intros lo.
  - cbn. rewrite Z.add_0_r. reflexivity.
  - cbn [Nat.add range_from app]. rewrite IH. do 3 f_equal. lia.
Qed.

Lemma range_split (lo mid hi : Z) :
  lo <= mid <= hi -> range lo hi = range lo mid ++ range mid hi.
Proof.
  intros H. unfold range.
  replace (Z.to_nat (hi - lo))
    with (Z.to_nat (mid - lo) + Z.to_nat (hi - mid))%nat by lia.
  rewrite range_from_app. do 2 f_equal. lia.
Qed.

Lemma range_cons (lo hi : Z) :
  lo < hi -> range lo hi = lo :: range (lo + 1) hi.
Proof.
  intros H. unfold range.
  replace (Z.to_nat (hi - lo)) with (S (Z.to_nat (hi - (lo + 1)))) by lia.
  reflexivity.
Qed.

Lemma range_empty (lo hi : Z) : hi <= lo -> range lo hi = [].
Proof.
  intros H. unfold range. replace (Z.to_nat (hi - lo)) with 0%nat by lia.
  reflexivity.
Qed.

Lemma range_from_sorted (n : nat) :
  forall lo : Z, StronglySorted Z.lt (range_from lo n).
Proof.
  induction n as [|n IH]; intros lo; cbn [range_from]; constructor.
  - apply IH.
  - apply Forall_forall. intros i Hi. apply range_from_In in Hi. lia.
Qed.

Lemma filter_sorted (f : Z -> bool) (l : list Z) :
  StronglySorted Z.lt l -> StronglySorted Z.lt (filter f l).
Proof.
  induction 1 as [|x l Hl IH Hx]; cbn [filter]; [constructor|].
  destruct (f x); [|exact IH]. constructor; [exact IH|].
  apply Forall_forall. intros y Hy. apply filter_In in Hy as [Hy _].
  rewrite Forall_forall in Hx. apply Hx, Hy.
Qed.

Lemma filter_none (f : Z -> bool) (l : list Z) :
  (forall i, In i l -> f i = false) -> filter f l = [].
Proof.
  induction l as [|x l IH]; intros H; cbn [filter]; [reflexivity|].
  rewrite (H x) by (left; reflexivity).
  apply IH. intros i Hi. apply H. right. exact Hi.
Qed.

Lemma filter_all (f : Z -> bool) (l : list Z) :
  (forall i, In i l -> f i = true) -> filter f l = l.
Proof.
  induction l as [|x l IH]; intros H; cbn [filter]; [reflexivity|].
  rewrite (H x) by (left; reflexivity).
  rewrite IH; [reflexivity|]. intros i Hi. apply H. right. exact Hi.
Qed.

Lemma occurrences_In (s t : str) (lo i : Z) :
  In i (occurrences s t lo) <-> lo <= i <= len s /\ occurs_at s t i = true.
Proof.
  unfold occurrences. rewrite filter_In, range_In.
  split; intros [Hi Hocc]; (split; [lia | exact Hocc]).
Qed.

Lemma occurrences_sorted (s t : str) (lo : Z) :
  StronglySorted Z.lt (occurrences s t lo).
Proof. apply filter_sorted, range_from_sorted. Qed.

Lemma occurrences_none (s t : str) (lo : Z) :
  (forall i, lo <= i <= len s -> occurs_at s t i = false) ->
  occurrences s t lo = [].
Proof.
  intros H. apply filter_none. intros i Hi. apply range_In in Hi.
  apply H. lia.
Qed.

(** The first occurrence at or after [lo] heads the list. *)
Lemma occurrences_first (s t : str) (lo j : Z) :
  lo <= j <= len s -> occurs_at s t j = true ->
  (forall i, lo <= i < j -> occurs_at s t i = false) ->
  occurrences s t lo = j :: occurrences s t (j + 1).
Proof.
  intros Hj Hocc Hfirst. unfold occurrences.
  rewrite (range_split lo j (len s + 1)) by lia.
  rewrite filter_app, filter_none.
  - rewrite range_cons by lia. cbn [app filter]. rewrite Hocc. reflexivity.
  - intros i Hi. apply range_In in Hi. apply Hfirst. exact Hi.
Qed.

(** ** The occurrence finder *)

(** From any state the loop can be in, fuel beyond the distance to the end
    of the string lets it reach [break], with the occurrences after
    [index] appended. *)
Lemma find_all_indices_loop_run (s t : str) :
  forall (fuel : nat) (index : Z) (indices : list Z),
    -1 <= index <= len s ->
    (Z.to_nat (len s - index) < fuel)%nat ->
    find_all_indices_loop fuel s t index indices
    = Some (indices ++ occurrences s t (index + 1)).
Proof.
  induction fuel as [|fuel IH]; intros index indices Hindex Hfuel; [lia|].
  cbn [find_all_indices_loop].
  destruct (Z.eq_dec index (len s)) as [Hend | Hmore].
  - rewrite find_beyond by lia. cbn [Z.eqb].
    unfold occurrences. rewrite range_empty by lia.
    rewrite app_nil_r. reflexivity.
  - destruct (find_spec s t (index + 1))
      as [[Hnone Hno] | (Hj & Hocc & Hfirst)]; [lia | |].
    + rewrite Hnone. cbn [Z.eqb].
      rewrite occurrences_none by exact Hno.
      rewrite app_nil_r. reflexivity.
    + remember (find s t (index + 1)) as j eqn:Ej.
      destruct (Z.eqb_spec j (-1)) as [Hneg | _]; [lia|].
      rewrite IH by lia.
      rewrite (occurrences_first s t (index + 1) j) by assumption.
      rewrite <- app_assoc. reflexivity.
Qed.

Lemma find_all_indices_run (s t : str) :
  forall fuel : nat,
    (List.length s + 2 <= fuel)%nat ->
    find_all_indices fuel s t = Some (occurrences s t 0).
Proof.
  intros fuel Hfuel. unfold find_all_indices.
  rewrite find_all_indices_loop_run.
  - reflexivity.
  - pose proof (len_nonneg s). lia.
  - unfold len. lia.
Qed.

Lemma find_all_indices_returns_occurrences (s t : str) :
  find_all_indices_returns s t (occurrences s t 0).
Proof.
  exists (List.length s + 2)%nat. apply find_all_indices_run.
Qed.

Lemma slice_as_firstn (s t : str) (i : Z) :
  0 <= i ->
  slice s i (i + len t) = firstn (List.length t) (skipn (Z.to_nat i) s).
Proof.
  intros Hi. pose proof (len_nonneg t) as Ht. pose proof (len_nonneg s) as Hs.
  unfold slice.
  destruct (Z.ltb_spec i 0) as [Hneg | _]; [lia|].
  destruct (Z.ltb_spec (i + len t) 0) as [Hneg | _]; [lia|].
  rewrite !Z.max_r by lia.
  destruct (Z_le_gt_dec i (len s)) as [Hin | Hout].
  - rewrite (Z.min_r (len s) i) by lia.
    destruct (Z_le_gt_dec (i + len t) (len s)) as [Hfit | Hover].
    + rewrite Z.min_r by lia. f_equal. unfold len. lia.
    + rewrite Z.min_l by lia.
      rewrite !firstn_all2; [reflexivity | |];
        rewrite length_skipn; unfold len in *; lia.
  - rewrite !Z.min_l by lia. rewrite Z.sub_diag. cbn [Z.to_nat firstn].
    rewrite (skipn_all2 (n := Z.to_nat i)) by (unfold len in *; lia).
    rewrite firstn_nil. reflexivity.
Qed.

Lemma firstn_startswith (l t : str) :
  firstn (List.length t) l = t <-> startswith l t = true.
Proof.
  rewrite startswith_iff. split.
  - intros H. exists (skipn (List.length t) l).
    rewrite <- H at 1. symmetry. apply firstn_skipn.
  - intros [r ->]. apply firstn_length_app.
Qed.

(** For a non-negative offset, [s[i:i+len(t)] == t] says that [t] starts
    at offset [i] of [s]. *)
Lemma slice_occurs (s t : str) (i : Z) :
  0 <= i -> (slice s i (i + len t) = t <-> occurs_at s t i = true).
Proof.
  intros Hi. rewrite slice_as_firstn by exact Hi. apply firstn_startswith.
Qed.

Lemma occurs_within (s t : str) (i : Z) :
  t <> [] -> 0 <= i -> occurs_at s t i = true -> i < len s.
Proof.
  intros Ht Hi Hocc. unfold occurs_at in Hocc.
  apply startswith_iff, is_prefix_length in Hocc.
  rewrite length_skipn in Hocc.
  destruct t as [|c t]; [contradiction|]. cbn [List.length] in Hocc.
  unfold len. lia.
Qed.

(** C5. For every string [s] and non-empty [t], [find_all_indices]
    returns the strictly increasing list of all offsets [i] with
    [s[i:i+len(t)] == t], overlapping occurrences included; the list is
    empty when [t] never occurs, in particular when [s] is empty; and the
    two literal scenarios of the spec hold. *)
Theorem find_all_indices_occurrences :
  (forall s t : str, t <> [] ->
     exists r : list Z,
       find_all_indices_returns s t r
       /\ StronglySorted Z.lt r
       /\ (forall i : Z, In i r <-> 0 <= i /\ slice s i (i + len t) = t)
       /\ ((forall i : Z, 0 <= i -> slice s i (i + len t) <> t) -> r = [])
       /\ (s = [] -> r = []))
  /\ find_all_indices_returns (lit "aaa") (lit "aa") [0; 1]
  /\ find_all_indices_returns (lit "abcabc") (lit "abc") [0; 3].
Proof.
  split; [|split].
  - intros s t Ht. exists (occurrences s t 0).
    split; [apply find_all_indices_returns_occurrences|].
    split; [apply occurrences_sorted|].
    assert (Hin : forall i, In i (occurrences s t 0)
                            <-> 0 <= i /\ slice s i (i + len t) = t).
    { intros i. rewrite occurrences_In. split.
      - intros [Hi Hocc]. split; [lia|]. apply slice_occurs; [lia | exact Hocc].
      - intros [Hi Hslice]. apply slice_occurs in Hslice; [|exact Hi].
        pose proof (occurs_within s t i Ht Hi Hslice).
        split; [lia | exact Hslice]. }
    split; [exact Hin|]. split.
    + intros Hnever. apply occurrences_none. intros i Hi.
      destruct (occurs_at s t i) eqn:Hocc; [|reflexivity].
      exfalso. apply (Hnever i); [lia|]. apply slice_occurs; [lia | exact Hocc].
    + intros ->. destruct t as [|c t]; [contradiction | reflexivity].
  - replace [0; 1] with (occurrences (lit "aaa") (lit "aa") 0)
      by (vm_compute; reflexivity).
    apply find_all_indices_returns_occurrences.
  - replace [0; 3] with (occurrences (lit "abcabc") (lit "abc") 0)
      by (vm_compute; reflexivity).
    apply find_all_indices_returns_occurrences.
Qed.

(** C10. For every string [s], [find_all_indices] called with the empty
    substring reaches [break] and returns [[0, 1, ..., len(s)]]: a
    strictly increasing list that holds exactly the offsets from 0 to
    [len(s)], hence not empty. *)
Theorem find_all_indices_empty_substring :
  forall s : str,
    find_all_indices_returns s [] (range 0 (len s + 1))
    /\ StronglySorted Z.lt (range 0 (len s + 1))
    /\ (forall i : Z, In i (range 0 (len s + 1)) <-> 0 <= i <= len s)
    /\ range 0 (len s + 1) <> [].
Proof.
  intros s.
  assert (Hall : occurrences s [] 0 = range 0 (len s + 1))
    by (apply filter_all; reflexivity).
  split; [rewrite <- Hall; apply find_all_indices_returns_occurrences|].
  split; [apply range_from_sorted|].
  split; [intros i; rewrite range_In; lia|].
  pose proof (len_nonneg s). rewrite range_cons by lia. discriminate.
Qed.

(** C9. The four operations are total: for all string inputs each returns
    a value and none raises; the loop of [find_all_indices] reaches
    [break] once the fuel exceeds the length of the string by two. In the
    degenerate cases (an input is empty, or the strings share no prefix or
    suffix) the result is the empty string or the empty list. *)
Theorem operations_total :
  forall s1 s2 : str,
    (exists p, find_common_prefix s1 s2 = Return p)
    /\ (exists r, find_common_suffix s1 s2 = Return r)
    /\ (exists d, extract_intermediate_diff s1 s2 = Return d)
    /\ (exists l, forall fuel : nat,
           (List.length s1 + 2 <= fuel)%nat ->
           find_all_indices fuel s1 s2 = Some l)
    /\ find_common_prefix [] s2 = Return []
    /\ find_common_prefix s1 [] = Return []
    /\ find_common_suffix [] s2 = Return []
    /\ find_common_suffix s1 [] = Return []
    /\ extract_intermediate_diff [] [] = Return []
    /\ (forall x a y b, x <> y ->
          find_common_prefix (x :: a) (y :: b) = Return [])
    /\ (forall a x b y, x <> y ->
          find_common_suffix (a ++ [x]) (b ++ [y]) = Return [])
    /\ (forall c t, find_all_indices_returns [] (c :: t) []).
Proof.
  intros s1 s2.
  split; [eexists; apply find_common_prefix_spec|].
  split; [eexists; apply find_common_suffix_spec|].
  split; [destruct (extract_intermediate_diff_spec s1 s2)
            as (c' & o' & _ & _ & ->); eexists; reflexivity|].
  split; [eexists; apply find_all_indices_run|].
  split; [rewrite find_common_prefix_spec; reflexivity|].
  split; [rewrite find_common_prefix_spec; unfold longest_common_prefix;
          rewrite common_run_nil_r; reflexivity|].
  split; [rewrite find_common_suffix_spec; reflexivity|].
  split; [rewrite find_common_suffix_spec; unfold common_structural_suffix;
          cbn [rev]; rewrite common_run_nil_r; reflexivity|].
  split; [reflexivity|].
  split; [|split].
  - intros x a y b Hxy. rewrite find_common_prefix_spec.
    unfold longest_common_prefix. cbn [common_run].
    destruct (Ascii.eqb_spec x y) as [Heq | _]; [contradiction | reflexivity].
  - intros a x b y Hxy. rewrite find_common_suffix_spec.
    unfold common_structural_suffix. rewrite !rev_app_distr.
    cbn [rev app common_run].
    destruct (Ascii.eqb_spec x y) as [Heq | _]; [contradiction | reflexivity].
  - intros c t. replace (@nil Z) with (occurrences [] (c :: t) 0)
      by reflexivity.
    apply find_all_indices_returns_occurrences.
Qed.

(** ** Reconstruction of a stream from its diffs *)

Lemma take_drop_while (ok : ascii -> bool) (s : str) :
  take_while ok s ++ drop_while ok s = s.
Proof.
  induction s as [|c s IH]; cbn; [reflexivity|].
  destruct (ok c); cbn; [rewrite IH|]; reflexivity.
Qed.

Lemma take_while_all (ok : ascii -> bool) (s : str) :
  Forall (fun c => ok c = true) (take_while ok s).
Proof.
  induction s as [|c s IH]; cbn; [constructor|].
  destruct (ok c) eqn:Hc; constructor; assumption.
Qed.

Lemma take_while_id (ok : ascii -> bool) (s : str) :
  Forall (fun c => ok c = true) s -> take_while ok s = s.
Proof.
  induction 1 as [|c s Hc _ IH]; cbn; [reflexivity|].
  rewrite Hc, IH. reflexivity.
Qed.

(** Nothing that passes [ok] is left at the head after [drop_while]. *)
Lemma common_run_drop_while (ok : ascii -> bool) (s y : str) :
  common_run ok (drop_while ok s) y = [].
Proof.
  induction s as [|c s IH]; cbn [drop_while]; [reflexivity|].
  destruct (ok c) eqn:Hc; [exact IH|].
  destruct y as [|e y]; cbn [common_run]; [reflexivity|].
  rewrite Hc, andb_false_r. reflexivity.
Qed.

Lemma content_tail (s : str) : content s ++ structural_tail s = s.
Proof.
  unfold content, structural_tail.
  rewrite <- rev_app_distr, take_drop_while. apply rev_involutive.
Qed.

Lemma rev_injective (a b : str) : rev a = rev b -> a = b.
Proof.
  intros H. rewrite <- (rev_involutive a), H. apply rev_involutive.
Qed.

Lemma Return_injective (A : Type) (x y : A) : Return x = Return y -> x = y.
Proof. intros H. injection H as ->. reflexivity. Qed.

Lemma last_cons (b a : str) (rest : list str) :
  last (b :: rest) a = last rest b.
Proof.
  revert a b. induction rest as [|c rest IH]; intros a b; [reflexivity|].
  change (last (b :: c :: rest) a) with (last (c :: rest) a).
  rewrite (IH a c), (IH b c). reflexivity.
Qed.

(** C1, as the spec states it, fails. The stream seeded with the empty
    string whose snapshots are the two renderings of the spec's literal
    scenario grows monotonically, yet its first diff is the whole first
    snapshot, closing quote and brace included, so the concatenation is
    not the last snapshot without its structural tail. *)
Lemma stream_diffs_seeded_counterexample :
  chain extends_content [] [fruit_ap; fruit_apple]
  /\ stream_diffs [] [fruit_ap; fruit_apple] = Return (fruit_ap ++ lit "ple")
  /\ content (last [fruit_ap; fruit_apple] []) = fruit_apple_open
  /\ fruit_ap ++ lit "ple" <> fruit_apple_open
  /\ ~ (forall snapshots : list str,
          chain extends_content [] snapshots ->
          stream_diffs [] snapshots
          = Return (content (last snapshots []))).
Proof.
  assert (Hchain : chain extends_content [] [fruit_ap; fruit_apple]).
  { split; [exists (content fruit_ap); reflexivity|].
    split; [|exact I]. exists (lit "ple"). vm_compute. reflexivity. }
  assert (Hdiffs : stream_diffs [] [fruit_ap; fruit_apple]
                   = Return (fruit_ap ++ lit "ple"))
    by (vm_compute; reflexivity).
  assert (Hlast : content (last [fruit_ap; fruit_apple] []) = fruit_apple_open)
    by (vm_compute; reflexivity).
  assert (Hneq : fruit_ap ++ lit "ple" <> fruit_apple_open)
    by (vm_compute; discriminate).
  repeat split; try assumption.
  - exists (content fruit_ap). reflexivity.
  - exists (lit "ple"). vm_compute. reflexivity.
  - intros Hclaim. specialize (Hclaim _ Hchain).
    rewrite Hdiffs, Hlast in Hclaim.
    apply Hneq, Return_injective, Hclaim.
Qed.

(** * Further properties of the four functions *)

(** ** Helper facts *)

Lemma is_prefix_trans (p q s : str) :
  is_prefix p q -> is_prefix q s -> is_prefix p s.
Proof.
  intros [r1 ->] [r2 ->]. exists (r1 ++ r2). symmetry. apply app_assoc.
Qed.

Lemma is_prefix_all (P : ascii -> Prop) (p s : str) :
  is_prefix p s -> Forall P s -> Forall P p.
Proof. intros [r ->] H. apply Forall_app in H. tauto. Qed.

Lemma common_run_refl (ok : ascii -> bool) (s : str) :
  common_run ok s s = take_while ok s.
Proof.
  induction s as [|c s IH]; cbn; [reflexivity|].
  rewrite Ascii.eqb_refl, IH. reflexivity.
Qed.

Lemma common_run_take_while (ok : ascii -> bool) (a b : str) :
  common_run ok a b = take_while ok (common_run (fun _ => true) a b).
Proof.
  revert b. induction a as [|x a IH]; intros [|y b]; cbn; try reflexivity.
  destruct (Ascii.eqb x y); cbn; [|reflexivity].
  destruct (ok x); [rewrite IH|]; reflexivity.
Qed.

Lemma common_run_head_fails (ok : ascii -> bool) (x : ascii) (a b : str) :
  ok x = false -> common_run ok (x :: a) b = [].
Proof.
  intros Hx. destruct b as [|y b]; cbn; [reflexivity|].
  rewrite Hx, andb_false_r. reflexivity.
Qed.

Lemma longest_common_prefix_cons (x y : ascii) (a b : str) :
  common_run (fun _ => true) (x :: a) (y :: b)
  = if Ascii.eqb x y then x :: common_run (fun _ => true) a b else [].
Proof. cbn [common_run]. rewrite andb_true_r. reflexivity. Qed.

Lemma common_run_assoc (a b c : str) :
  common_run (fun _ => true) (common_run (fun _ => true) a b) c
  = common_run (fun _ => true) a (common_run (fun _ => true) b c).
Proof.
  revert b c. induction a as [|x a IH]; intros b c; [reflexivity|].
  destruct b as [|y b]; [reflexivity|].
  destruct c as [|z c]; [rewrite common_run_nil_r; reflexivity|].
  rewrite (longest_common_prefix_cons x y), (longest_common_prefix_cons y z).
  destruct (Ascii.eqb_spec x y) as [Hxy | Hxy],
           (Ascii.eqb_spec y z) as [Hyz | Hyz]; subst.
  - rewrite !longest_common_prefix_cons, Ascii.eqb_refl, IH. reflexivity.
  - rewrite longest_common_prefix_cons.
    destruct (Ascii.eqb_spec y z); [contradiction | reflexivity].
  - rewrite longest_common_prefix_cons.
    destruct (Ascii.eqb_spec x z); [contradiction | reflexivity].
  - reflexivity.
Qed.

(** The diff, once the common suffix and the two stripped strings are
    known. *)
Lemma extract_intermediate_diff_with (curr old c' o' t : str) :
  common_structural_suffix curr old = t ->
  curr = c' ++ t -> old = o' ++ t ->
  extract_intermediate_diff curr old
  = Return (strip_leading (longest_common_prefix curr o') c').
Proof.
  intros Ht Hc Ho.
  destruct (extract_intermediate_diff_spec curr old)
    as (c1 & o1 & Hc1 & Ho1 & ->).
  rewrite Ht in Hc1, Ho1.
  rewrite Hc in Hc1. apply app_inv_tail in Hc1.
  rewrite Ho in Ho1. apply app_inv_tail in Ho1.
  subst c1 o1. reflexivity.
Qed.

Lemma common_structural_suffix_alnum_end (w old : str) (z : ascii) :
  isalnum z = true -> common_structural_suffix (w ++ [z]) old = [].
Proof.
  intros Hz. unfold common_structural_suffix.
  rewrite rev_app_distr. cbn [rev app].
  rewrite common_run_head_fails; [reflexivity|].
  unfold structural. rewrite Hz. reflexivity.
Qed.

Lemma common_structural_suffix_app (a b t : str) :
  Forall (fun c => isalnum c = false) t ->
  common_structural_suffix (a ++ t) (b ++ t)
  = common_structural_suffix a b ++ t.
Proof.
  intros Ht. unfold common_structural_suffix.
  rewrite !rev_app_distr, common_run_app
    by apply Forall_rev_iff, Forall_structural, Ht.
  rewrite rev_app_distr, rev_involutive. reflexivity.
Qed.

Lemma longest_common_prefix_app (p a b : str) :
  longest_common_prefix (p ++ a) (p ++ b) = p ++ longest_common_prefix a b.
Proof. apply common_run_app, all_true. Qed.

Lemma longest_common_prefix_alnum_structural (x : ascii) (a u : str) :
  isalnum x = true -> Forall (fun c => isalnum c = false) u ->
  longest_common_prefix (x :: a) u = [].
Proof.
  intros Hx Hu. unfold longest_common_prefix.
  destruct u as [|y u]; cbn; [reflexivity|].
  destruct (Ascii.eqb_spec x y) as [-> | _]; [|reflexivity].
  apply Forall_inv in Hu. congruence.
Qed.

(** ** The diff extractor at its edges *)

(** X1. Against an empty previous snapshot the diff is the whole current
    snapshot: nothing is held back, structural tail included. *)
Theorem extract_intermediate_diff_empty_previous :
  forall curr : str, extract_intermediate_diff curr [] = Return curr.
Proof.
  intros curr.
  rewrite (extract_intermediate_diff_with curr [] curr [] []).
  - unfold longest_common_prefix. rewrite common_run_nil_r. reflexivity.
  - unfold common_structural_suffix. cbn [rev].
    rewrite common_run_nil_r. reflexivity.
  - symmetry. apply app_nil_r.
  - reflexivity.
Qed.

(** X2. An empty current snapshot yields the empty diff, whatever the
    previous snapshot was. *)
Theorem extract_intermediate_diff_empty_current :
  forall old : str, extract_intermediate_diff [] old = Return [].
Proof.
  intros old.
  destruct (extract_intermediate_diff_spec [] old) as (c' & o' & Hc & _ & ->).
  symmetry in Hc. apply app_eq_nil in Hc as [-> _]. reflexivity.
Qed.

(** X3. When the current snapshot is the previous one with text appended
    that ends in an alphanumeric character, the diff is exactly the
    appended text. *)
Theorem extract_intermediate_diff_appended :
  forall (old d : str) (z : ascii),
    isalnum z = true ->
    extract_intermediate_diff (old ++ d ++ [z]) old = Return (d ++ [z]).
Proof.
  intros old d z Hz.
  rewrite (extract_intermediate_diff_with _ old (old ++ d ++ [z]) old []).
  - unfold longest_common_prefix. rewrite common_run_comm.
    fold (longest_common_prefix old (old ++ d ++ [z])).
    rewrite longest_common_prefix_of_prefix, strip_leading_app. reflexivity.
  - rewrite app_assoc. apply common_structural_suffix_alnum_end, Hz.
  - symmetry. apply app_nil_r.
  - symmetry. apply app_nil_r.
Qed.

Lemma extract_intermediate_diff_appended_witness :
  isalnum "e"%char = true
  /\ extract_intermediate_diff (lit "ap" ++ lit "pl" ++ ["e"%char]) (lit "ap")
     = Return (lit "pl" ++ ["e"%char]).
Proof.
  assert (H : isalnum "e"%char = true) by reflexivity.
  split; [exact H|].
  exact (extract_intermediate_diff_appended (lit "ap") (lit "pl") "e"%char H).
Defined.

(** X4. Speculative closers are withheld. When both snapshots start with
    the same text [c] and end with the same structural run [t], the
    previous one has only further structural characters [u] in between,
    and the current one has there new text [d] that starts and ends with an
    alphanumeric character, the diff is exactly [d]: neither the closers
    [u] of the previous snapshot nor the tail [t] are emitted. *)
Theorem extract_intermediate_diff_withholds_closers :
  forall (c u t d rest d' : str) (x z : ascii),
    Forall (fun k => isalnum k = false) u ->
    Forall (fun k => isalnum k = false) t ->
    d = x :: rest -> isalnum x = true ->
    d = d' ++ [z] -> isalnum z = true ->
    extract_intermediate_diff (c ++ d ++ t) (c ++ u ++ t) = Return d.
Proof.
  intros c u t d rest d' x z Hu Ht Hd Hx Hd' Hz.
  rewrite (extract_intermediate_diff_with _ _ (c ++ d) (c ++ u) t).
  - f_equal. rewrite longest_common_prefix_app. rewrite Hd at 1.
    change ((x :: rest) ++ t) with (x :: rest ++ t).
    rewrite (longest_common_prefix_alnum_structural x _ u Hx Hu).
    rewrite app_nil_r. apply strip_leading_app.
  - rewrite !app_assoc, common_structural_suffix_app by exact Ht.
    rewrite Hd', app_assoc.
    rewrite common_structural_suffix_alnum_end by exact Hz. reflexivity.
  - apply app_assoc.
  - apply app_assoc.
Qed.

Lemma extract_intermediate_diff_withholds_closers_witness :
  Forall (fun k => isalnum k = false) [dquote]
  /\ Forall (fun k => isalnum k = false) (lit "}")
  /\ lit "ple" = "p"%char :: lit "le" /\ isalnum "p"%char = true
  /\ lit "ple" = lit "pl" ++ ["e"%char] /\ isalnum "e"%char = true
  /\ extract_intermediate_diff (fruit_ap_open ++ lit "ple" ++ lit "}")
       (fruit_ap_open ++ [dquote] ++ lit "}") = Return (lit "ple").
Proof.
  assert (Hu : Forall (fun k => isalnum k = false) [dquote])
    by (repeat constructor).
  assert (Ht : Forall (fun k => isalnum k = false) (lit "}"))
    by (repeat constructor).
  assert (Hd : lit "ple" = "p"%char :: lit "le") by reflexivity.
  assert (Hx : isalnum "p"%char = true) by reflexivity.
  assert (Hd' : lit "ple" = lit "pl" ++ ["e"%char]) by reflexivity.
  assert (Hz : isalnum "e"%char = true) by reflexivity.
  repeat (split; [assumption|]).
  exact (extract_intermediate_diff_withholds_closers
           fruit_ap_open [dquote] (lit "}") (lit "ple") (lit "le") (lit "pl")
           "p"%char "e"%char Hu Ht Hd Hx Hd' Hz).
Defined.

(** ** The matchers as greatest common bounds *)

(** X5. A string's common prefix with itself is the string. *)
Theorem find_common_prefix_same :
  forall a : str, find_common_prefix a a = Return a.
Proof.
  intros a. rewrite find_common_prefix_spec.
  rewrite <- (app_nil_r a) at 2.
  rewrite longest_common_prefix_of_prefix. reflexivity.
Qed.

(** X6. A string's common suffix with itself is its trailing run of
    non-alphanumeric characters; that run is the string itself exactly
    when the string has no alphanumeric character. *)
Theorem find_common_suffix_same :
  forall a : str,
    find_common_suffix a a = Return (structural_tail a)
    /\ (structural_tail a = a <-> Forall (fun c => isalnum c = false) a).
Proof.
  intros a. split.
  - rewrite find_common_suffix_spec.
    unfold common_structural_suffix, structural_tail.
    rewrite common_run_refl. reflexivity.
  - unfold structural_tail. split.
    + intros Hsame. rewrite <- Hsame.
      apply Forall_structural, Forall_rev_iff, take_while_all.
    + intros Hall. rewrite take_while_id; [apply rev_involutive|].
      apply Forall_rev_iff, Forall_structural, Hall.
Qed.

(** X7. The result of [find_common_prefix] is the greatest common prefix:
    a string is a prefix of both arguments exactly when it is a prefix of
    the result. *)
Theorem find_common_prefix_greatest :
  forall a b : str, exists p : str,
    find_common_prefix a b = Return p
    /\ forall q : str, (is_prefix q a /\ is_prefix q b) <-> is_prefix q p.
Proof.
  intros a b. exists (longest_common_prefix a b).
  split; [apply find_common_prefix_spec|].
  intros q. split.
  - intros [Ha Hb]. apply common_run_longest; [exact Ha | exact Hb |].
    apply all_true.
  - intros Hq. split.
    + apply (is_prefix_trans _ _ _ Hq), longest_common_prefix_l.
    + apply (is_prefix_trans _ _ _ Hq), longest_common_prefix_r.
Qed.

(** X8. The result of [find_common_suffix] is the greatest common suffix
    made of non-alphanumeric characters: a string of such characters is a
    suffix of both arguments exactly when it is a suffix of the result. *)
Theorem find_common_suffix_greatest :
  forall a b : str, exists r : str,
    find_common_suffix a b = Return r
    /\ forall t : str,
        (is_suffix t a /\ is_suffix t b
         /\ Forall (fun c => isalnum c = false) t)
        <-> is_suffix t r.
Proof.
  intros a b. exists (common_structural_suffix a b).
  split; [apply find_common_suffix_spec|].
  intros t. split.
  - intros (Ha & Hb & Ht). apply is_suffix_rev.
    unfold common_structural_suffix. rewrite rev_involutive.
    apply common_run_longest.
    + apply is_suffix_rev, Ha.
    + apply is_suffix_rev, Hb.
    + apply Forall_rev_iff, Forall_structural, Ht.
  - intros Ht. apply is_suffix_rev in Ht.
    unfold common_structural_suffix in Ht. rewrite rev_involutive in Ht.
    destruct (common_run_split structural (rev a) (rev b))
      as (ra & rb & Hra & Hrb & _).
    split; [|split].
    + apply is_suffix_rev, (is_prefix_trans _ _ _ Ht).
      exists ra. exact Hra.
    + apply is_suffix_rev, (is_prefix_trans _ _ _ Ht).
      exists rb. exact Hrb.
    + apply Forall_structural, Forall_rev_iff.
      apply (is_prefix_all _ _ _ Ht), common_run_all.
Qed.

(** X9. [find_common_suffix] returns the trailing non-alphanumeric run of
    the full common suffix: it is the longest common suffix cut back to
    what follows its last alphanumeric character. *)
Theorem find_common_suffix_cuts_common_suffix :
  forall a b : str,
    find_common_suffix a b
    = Return (structural_tail (longest_common_suffix a b)).
Proof.
  intros a b. rewrite find_common_suffix_spec.
  unfold common_structural_suffix, structural_tail, longest_common_suffix.
  rewrite rev_involutive, <- common_run_take_while. reflexivity.
Qed.

(** X10. A shared lead passes through [find_common_prefix]: the common
    prefix of [p ++ a] and [p ++ b] is [p] followed by the common prefix
    of [a] and [b]. *)
Theorem find_common_prefix_shared_lead :
  forall p a b : str, exists r : str,
    find_common_prefix a b = Return r
    /\ find_common_prefix (p ++ a) (p ++ b) = Return (p ++ r).
Proof.
  intros p a b. exists (longest_common_prefix a b).
  rewrite !find_common_prefix_spec, longest_common_prefix_app.
  split; reflexivity.
Qed.

(** X11. [find_common_prefix] is associative: the common prefix of three
    strings does not depend on which pair is matched first. *)
Theorem find_common_prefix_assoc :
  forall a b c : str,
    (ab <- find_common_prefix a b ;; find_common_prefix ab c)
    = (bc <- find_common_prefix b c ;; find_common_prefix a bc).
Proof.
  intros a b c. rewrite (find_common_prefix_spec a b).
  rewrite (find_common_prefix_spec b c). cbn [bind].
  rewrite !find_common_prefix_spec. unfold longest_common_prefix.
  rewrite common_run_assoc. reflexivity.
Qed.

(** ** The occurrence finder: bounds, splitting, growth, cost *)

Lemma range_from_length (n : nat) :
  forall lo : Z, List.length (range_from lo n) = n.
Proof.
  induction n as [|n IH]; intros lo; cbn; [reflexivity|].
  rewrite IH. reflexivity.
Qed.

Lemma filter_length_bound (f : Z -> bool) (l : list Z) :
  (List.length (filter f l) <= List.length l)%nat.
Proof.
  induction l as [|x l IH]; cbn; [lia|]. destruct (f x); cbn; lia.
Qed.

Lemma occurs_at_split (s t : str) (i : Z) :
  0 <= i <= len s -> occurs_at s t i = true ->
  exists rest, skipn (Z.to_nat i) s = t ++ rest.
Proof.
  intros _ Hocc. apply startswith_iff in Hocc. exact Hocc.
Qed.

Lemma occurs_at_fits (s t : str) (i : Z) :
  0 <= i <= len s -> occurs_at s t i = true -> i + len t <= len s.
Proof.
  intros Hi Hocc. apply startswith_iff, is_prefix_length in Hocc.
  rewrite length_skipn in Hocc. unfold len in *. lia.
Qed.

(** X12. Every offset that [find_all_indices] returns lies inside the
    string together with the whole match, [0 <= i] and
    [i + len(substring) <= len(string)], and there are at most
    [len(string) + 1] offsets. *)
Theorem find_all_indices_bounds :
  forall s t : str, exists r : list Z,
    find_all_indices_returns s t r
    /\ (forall i : Z, In i r -> 0 <= i /\ i + len t <= len s)
    /\ (List.length r <= List.length s + 1)%nat.
Proof.
  intros s t. exists (occurrences s t 0).
  split; [apply find_all_indices_returns_occurrences|]. split.
  - intros i Hi. apply occurrences_In in Hi as [Hi Hocc].
    split; [lia|]. apply occurs_at_fits; [lia | exact Hocc].
  - unfold occurrences.
    eapply Nat.le_trans; [apply filter_length_bound|].
    unfold range. rewrite range_from_length. unfold len. lia.
Qed.

(** X13. Every returned offset splits the string around a match: the
    text before the offset, the substring, and the text after the match
    make up the string again. *)
Theorem find_all_indices_split :
  forall s t : str, exists r : list Z,
    find_all_indices_returns s t r
    /\ forall i : Z, In i r ->
         slice s 0 i ++ t ++ slice s (i + len t) (len s) = s.
Proof.
  intros s t. exists (occurrences s t 0).
  split; [apply find_all_indices_returns_occurrences|].
  intros i Hi. apply occurrences_In in Hi as [Hi Hocc].
  pose proof (occurs_at_fits s t i Hi Hocc) as Hfit.
  destruct (occurs_at_split s t i Hi Hocc) as [rest Hrest].
  pose proof (len_nonneg t) as Ht.
  rewrite slice_within by lia. rewrite slice_to_end by lia.
  rewrite Z.sub_0_r. cbn [Z.to_nat skipn].
  replace (Z.to_nat (i + len t))
    with (List.length t + Z.to_nat i)%nat by (unfold len; lia).
  rewrite <- skipn_skipn, Hrest, skipn_length_app, <- Hrest.
  apply firstn_skipn.
Qed.

Lemma occurs_at_app (a b t : str) (i : Z) :
  0 <= i -> i + len t <= len a ->
  occurs_at (a ++ b) t i = occurs_at a t i.
Proof.
  intros Hi Hfit. unfold occurs_at.
  assert (Hlen : (List.length t <= List.length (skipn (Z.to_nat i) a))%nat)
    by (rewrite length_skipn; unfold len in *; lia).
  rewrite skipn_app.
  replace (Z.to_nat i - List.length a)%nat with 0%nat
    by (pose proof (len_nonneg t); unfold len in *; lia).
  cbn [skipn].
  destruct (startswith (skipn (Z.to_nat i) a) t) eqn:E.
  - apply startswith_iff. apply startswith_iff in E as [r ->].
    exists (r ++ b). symmetry. apply app_assoc.
  - destruct (startswith (skipn (Z.to_nat i) a ++ b) t) eqn:E';
      [|reflexivity].
    apply firstn_startswith in E'.
    rewrite firstn_app in E'.
    replace (List.length t - List.length (skipn (Z.to_nat i) a))%nat
      with 0%nat in E' by lia.
    cbn [firstn] in E'. rewrite app_nil_r in E'.
    apply firstn_startswith in E'. congruence.
Qed.

(** X14. Appending text keeps what was found: every offset found in [a]
    is found in [a ++ b], and an offset whose match would end within [a]
    is found in [a ++ b] only if it was found in [a]. *)
Theorem find_all_indices_append :
  forall a b t : str, exists ra rab : list Z,
    find_all_indices_returns a t ra
    /\ find_all_indices_returns (a ++ b) t rab
    /\ (forall i : Z, In i ra -> In i rab)
    /\ (forall i : Z, i + len t <= len a -> In i rab -> In i ra).
Proof.
  intros a b t. exists (occurrences a t 0), (occurrences (a ++ b) t 0).
  split; [apply find_all_indices_returns_occurrences|].
  split; [apply find_all_indices_returns_occurrences|].
  pose proof (len_nonneg b) as Hb. pose proof (len_nonneg t) as Ht.
  split.
  - intros i Hi. apply occurrences_In in Hi as [Hi Hocc].
    pose proof (occurs_at_fits a t i Hi Hocc) as Hfit.
    apply occurrences_In. rewrite len_app.
    split; [lia|]. rewrite occurs_at_app by lia. exact Hocc.
  - intros i Hfit Hi. apply occurrences_In in Hi as [Hi Hocc].
    apply occurrences_In. split; [lia|].
    rewrite occurs_at_app in Hocc by lia. exact Hocc.
Qed.

(** X15. [find_all_indices] agrees with [str.find]: it returns the empty
    list exactly when [string.find(substring)] is [-1], and otherwise its
    first element is [string.find(substring)]. *)
Theorem find_all_indices_first :
  forall s t : str, exists r : list Z,
    find_all_indices_returns s t r
    /\ (r = [] <-> find s t 0 = -1)
    /\ (forall i rest, r = i :: rest -> find s t 0 = i).
Proof.
  intros s t. exists (occurrences s t 0).
  split; [apply find_all_indices_returns_occurrences|].
  pose proof (len_nonneg s) as Hs.
  destruct (find_spec s t 0) as [[Hnone Hno] | (Hj & Hocc & Hfirst)];
    [lia | |].
  - rewrite (occurrences_none s t 0 Hno), Hnone.
    split; [tauto | discriminate].
  - rewrite (occurrences_first s t 0 (find s t 0)) by assumption.
    split.
    + split; [discriminate | lia].
    + intros i rest Heq. injection Heq as Hi _. exact Hi.
Qed.

(** The loop from any state: it needs exactly one iteration more than
    there are occurrences left to find. *)
Lemma find_all_indices_loop_cost (s t : str) :
  forall (fuel : nat) (index : Z) (indices : list Z),
    -1 <= index <= len s ->
    find_all_indices_loop fuel s t index indices
    = if (List.length (occurrences s t (index + 1)) <? fuel)%nat
      then Some (indices ++ occurrences s t (index + 1))
      else None.
Proof.
  induction fuel as [|fuel IH]; intros index indices Hindex; [reflexivity|].
  cbn [find_all_indices_loop].
  destruct (Z.eq_dec index (len s)) as [Hend | Hmore].
  - rewrite find_beyond by lia. cbn [Z.eqb].
    unfold occurrences. rewrite range_empty by lia.
    cbn [filter]. rewrite app_nil_r. reflexivity.
  - destruct (find_spec s t (index + 1))
      as [[Hnone Hno] | (Hj & Hocc & Hfirst)]; [lia | |].
    + rewrite Hnone. cbn [Z.eqb].
      rewrite occurrences_none by exact Hno.
      rewrite app_nil_r. reflexivity.
    + remember (find s t (index + 1)) as j eqn:Ej.
      destruct (Z.eqb_spec j (-1)) as [Hneg | _]; [lia|].
      rewrite IH by lia.
      rewrite (occurrences_first s t (index + 1) j) by assumption.
      cbn [List.length].
      change (S (List.length (occurrences s t (j + 1))) <? S fuel)%nat
        with (List.length (occurrences s t (j + 1)) <? fuel)%nat.
      rewrite <- app_assoc. reflexivity.
Qed.

(** X16. The loop of [find_all_indices] calls [str.find] exactly once
    more than it finds occurrences: with [r] the list it returns, a run
    limited to [fuel] iterations returns [r] when [fuel] exceeds the
    length of [r], and is still looping otherwise. *)
Theorem find_all_indices_cost :
  forall s t : str, exists r : list Z,
    forall fuel : nat,
      find_all_indices fuel s t
      = if (List.length r <? fuel)%nat then Some r else None.
Proof.
  intros s t. exists (occurrences s t 0). intros fuel.
  unfold find_all_indices.
  rewrite find_all_indices_loop_cost by (pose proof (len_nonneg s); lia).
  reflexivity.
Qed.

(** ** The difference in the middle *)

(** X17. When the previous snapshot is [c ++ t] and the current one is
    [c ++ m ++ t], with [t] a run of non-alphanumeric characters and [c]
    empty or ending in an alphanumeric character, the diff is exactly the
    inserted middle [m], whatever [m] holds: structural characters that
    are new in the current snapshot are emitted with it. *)
Theorem extract_intermediate_diff_middle :
  forall c m t : str,
    (c = [] \/ exists c' y, c = c' ++ [y] /\ isalnum y = true) ->
    Forall (fun k => isalnum k = false) t ->
    extract_intermediate_diff (c ++ m ++ t) (c ++ t) = Return m.
Proof.
  intros c m t Hc Ht.
  rewrite (extract_intermediate_diff_with _ _ (c ++ m) c t).
  - f_equal. unfold longest_common_prefix. rewrite common_run_comm.
    fold (longest_common_prefix c (c ++ m ++ t)).
    rewrite longest_common_prefix_of_prefix. apply strip_leading_app.
  - rewrite app_assoc, common_structural_suffix_app by exact Ht.
    rewrite common_structural_suffix_comm.
    destruct Hc as [-> | (c' & y & -> & Hy)].
    + reflexivity.
    + rewrite common_structural_suffix_alnum_end by exact Hy. reflexivity.
  - apply app_assoc.
  - reflexivity.
Qed.

Lemma extract_intermediate_diff_middle_witness :
  (fruit_ap_open = []
   \/ exists c' y, fruit_ap_open = c' ++ [y] /\ isalnum y = true)
  /\ Forall (fun k => isalnum k = false) (dquote :: lit "}")
  /\ extract_intermediate_diff
       (fruit_ap_open ++ lit "ple" ++ dquote :: lit "}")
       (fruit_ap_open ++ dquote :: lit "}")
     = Return (lit "ple").
Proof.
  assert (Hc : fruit_ap_open = []
               \/ exists c' y, fruit_ap_open = c' ++ [y] /\ isalnum y = true).
  { right.
    exists (lit "{" ++ dquote :: lit "fruit" ++ dquote :: lit ": "
            ++ dquote :: lit "a"), "p"%char.
    split; reflexivity. }
  assert (Ht : Forall (fun k => isalnum k = false) (dquote :: lit "}"))
    by (repeat constructor).
  split; [exact Hc|]. split; [exact Ht|].
  exact (extract_intermediate_diff_middle fruit_ap_open (lit "ple")
           (dquote :: lit "}") Hc Ht).
Defined.

(** * Reconstruction of a seeded stream *)

Lemma structural_tail_all (s : str) :
  Forall (fun c => isalnum c = false) (structural_tail s).
Proof.
  unfold structural_tail.
  apply Forall_structural, Forall_rev_iff, take_while_all.
Qed.

(** The content of a snapshot shares no structural suffix with anything:
    it is empty or ends in an alphanumeric character. *)
Lemma common_structural_suffix_content (b x : str) :
  common_structural_suffix (content b) x = [].
Proof.
  unfold common_structural_suffix, content.
  rewrite rev_involutive, common_run_drop_while. reflexivity.
Qed.

(** One step of a stream: when closers are only dropped, the diff is
    exactly what the content gained. *)
Lemma extract_intermediate_diff_gained (a b gained dropped : str) :
  content b = content a ++ gained ->
  structural_tail a = dropped ++ structural_tail b ->
  longest_common_prefix dropped (gained ++ structural_tail b) = [] ->
  extract_intermediate_diff b a = Return gained.
Proof.
  intros Hgain Hdrop Hpart.
  rewrite (extract_intermediate_diff_with b a (content b)
             (content a ++ dropped) (structural_tail b)).
  - f_equal. rewrite <- (content_tail b) at 1.
    rewrite Hgain, <- app_assoc, longest_common_prefix_app.
    unfold longest_common_prefix. rewrite common_run_comm.
    fold (longest_common_prefix dropped (gained ++ structural_tail b)).
    rewrite Hpart, app_nil_r. apply strip_leading_app.
  - rewrite <- (content_tail b) at 1. rewrite <- (content_tail a) at 1.
    rewrite Hdrop, app_assoc.
    rewrite common_structural_suffix_app by apply structural_tail_all.
    rewrite common_structural_suffix_content. reflexivity.
  - symmetry. apply content_tail.
  - rewrite <- app_assoc, <- Hdrop. symmetry. apply content_tail.
Qed.

(** A step that keeps the structural tail drops no closer. *)
Lemma same_tail_drops_none (a b : str) :
  extends_under_same_tail a b -> extends_dropping_closers a b.
Proof.
  intros [[gained Hgain] Htail]. exists gained, [].
  split; [exact Hgain|]. split; [symmetry; exact Htail | reflexivity].
Qed.

(** A stream started from any stored snapshot: the diffs add up to what
    the content gained since that snapshot. *)
Lemma stream_diffs_gained :
  forall (s0 : str) (snapshots : list str),
    chain extends_dropping_closers s0 snapshots ->
    exists ds : str,
      stream_diffs s0 snapshots = Return ds
      /\ content s0 ++ ds = content (last snapshots s0).
Proof.
  intros s0 snapshots. revert s0.
  induction snapshots as [|b rest IH]; intros a Hchain.
  - exists []. split; [reflexivity | apply app_nil_r].
  - destruct Hchain as [(gained & dropped & Hgain & Hdrop & Hpart) Hrest].
    destruct (IH b Hrest) as (ds & Hds & Hbs).
    exists (gained ++ ds). cbn [stream_diffs].
    rewrite (extract_intermediate_diff_gained a b gained dropped)
      by assumption.
    rewrite Hds. cbn [bind]. split; [reflexivity|].
    rewrite last_cons, app_assoc, <- Hgain. exact Hbs.
Qed.

(** C1, as the code has it. For every stream seeded with the empty
    string whose snapshots [s1, ..., sn] grow by dropping closers only
    (each one extends the content of the one before, keeps as its trailing
    structural run a suffix of the previous trailing run, and does not
    continue the previous content with the first of the closers it
    dropped), every diff is returned; the concatenation of the diffs is
    the first snapshot [s1], whole, followed by [ds], where [ds] is what
    the content of [sn] adds to the content of [s1]; and that
    concatenation equals [sn] with its trailing run of structural
    characters removed exactly when [s1] ends in no structural
    character. *)
Theorem stream_diffs_reconstruct :
  forall (s1 : str) (rest : list str),
    chain extends_dropping_closers s1 rest ->
    exists ds : str,
      stream_diffs [] (s1 :: rest) = Return (s1 ++ ds)
      /\ content s1 ++ ds = content (last (s1 :: rest) [])
      /\ (s1 ++ ds = content (last (s1 :: rest) [])
          <-> structural_tail s1 = []).
Proof.
  intros s1 rest Hchain.
  destruct (stream_diffs_gained s1 rest Hchain) as (ds & Hds & Hsum).
  exists ds. rewrite last_cons.
  assert (Hfirst : extract_intermediate_diff s1 [] = Return s1).
  { rewrite (extract_intermediate_diff_with s1 [] s1 [] []).
    - unfold longest_common_prefix. rewrite common_run_nil_r. reflexivity.
    - unfold common_structural_suffix. cbn [rev].
      rewrite common_run_nil_r. reflexivity.
    - symmetry. apply app_nil_r.
    - reflexivity. }
  split; [cbn [stream_diffs]; rewrite Hfirst, Hds; reflexivity|].
  split; [exact Hsum|].
  rewrite <- Hsum. split.
  - intros Heq. apply app_inv_tail in Heq.
    pose proof (f_equal (@List.length ascii) (content_tail s1)) as Hparts.
    rewrite length_app in Hparts. rewrite Heq in Hparts at 3.
    apply length_zero_iff_nil. lia.
  - intros Htail. pose proof (content_tail s1) as Hparts.
    rewrite Htail, app_nil_r in Hparts. rewrite Hparts. reflexivity.
Qed.

Lemma stream_diffs_reconstruct_witness :
  chain extends_dropping_closers fruit_ap [fruit_apple; fruit_apple_pie_n]
  /\ exists ds : str,
      stream_diffs [] [fruit_ap; fruit_apple; fruit_apple_pie_n]
      = Return (fruit_ap ++ ds)
      /\ content fruit_ap ++ ds
         = content (last [fruit_ap; fruit_apple; fruit_apple_pie_n] [])
      /\ (fruit_ap ++ ds
          = content (last [fruit_ap; fruit_apple; fruit_apple_pie_n] [])
          <-> structural_tail fruit_ap = []).
Proof.
  assert (H : chain extends_dropping_closers fruit_ap
                [fruit_apple; fruit_apple_pie_n]).
  { split; [|split; [|exact I]].
    - exists (lit "ple"), []. repeat split; vm_compute; reflexivity.
    - exists (lit " pie" ++ dquote :: lit ", " ++ dquote :: lit "n"
              ++ dquote :: lit ": 1"), [dquote].
      repeat split; vm_compute; reflexivity. }
  split; [exact H|].
  exact (stream_diffs_reconstruct fruit_ap [fruit_apple; fruit_apple_pie_n] H).
Defined.

(** Why later steps may drop closers but not add them, and why a dropped
    closer must not be what the new snapshot continues with. Both steps
    below extend the content of the stored snapshot. In the first the new
    snapshot ends in a closing quote the stored one did not have: the diff
    carries that quote, ahead of the text it will close. In the second the
    stored snapshot ends in a closing quote that the new one has inside
    its content: the prefix match runs over that quote and the diff lacks
    it. Either way the stored content followed by the diff is not the new
    content. *)
Lemma stream_diffs_closer_counterexamples :
  (extends_content json_a1 json_a1_bx
   /\ is_suffix (structural_tail json_a1) (structural_tail json_a1_bx)
   /\ stream_diffs json_a1 [json_a1_bx]
      = Return (lit ", " ++ dquote :: lit "b" ++ dquote :: lit ": "
                ++ dquote :: lit "x" ++ [dquote])
   /\ forall ds : str,
        stream_diffs json_a1 [json_a1_bx] = Return ds ->
        content json_a1 ++ ds <> content (last [json_a1_bx] json_a1))
  /\ (extends_content json_ax json_ax_b1
      /\ is_suffix (structural_tail json_ax_b1) (structural_tail json_ax)
      /\ stream_diffs json_ax [json_ax_b1]
         = Return (lit ", " ++ dquote :: lit "b" ++ dquote :: lit ": 1")
      /\ forall ds : str,
           stream_diffs json_ax [json_ax_b1] = Return ds ->
           content json_ax ++ ds <> content (last [json_ax_b1] json_ax)).
Proof.
  split.
  - split; [exists (lit ", " ++ dquote :: lit "b" ++ dquote :: lit ": "
                    ++ dquote :: lit "x"); vm_compute; reflexivity|].
    split; [exists [dquote]; vm_compute; reflexivity|].
    split; [vm_compute; reflexivity|].
    intros ds Hds.
    assert (Hrun : stream_diffs json_a1 [json_a1_bx]
                   = Return (lit ", " ++ dquote :: lit "b" ++ dquote
                             :: lit ": " ++ dquote :: lit "x" ++ [dquote]))
      by (vm_compute; reflexivity).
    rewrite Hrun in Hds. apply Return_injective in Hds. subst ds.
    vm_compute. discriminate.
  - split; [exists (dquote :: lit ", " ++ dquote :: lit "b" ++ dquote
                    :: lit ": 1"); vm_compute; reflexivity|].
    split; [exists [dquote]; vm_compute; reflexivity|].
    split; [vm_compute; reflexivity|].
    intros ds Hds.
    assert (Hrun : stream_diffs json_ax [json_ax_b1]
                   = Return (lit ", " ++ dquote :: lit "b" ++ dquote
                             :: lit ": 1"))
      by (vm_compute; reflexivity).
    rewrite Hrun in Hds. apply Return_injective in Hds. subst ds.
    vm_compute. discriminate.
Qed.
